(** * NetworkGraphVisualizer: graph store and shortest-path engine

    A shallow embedding of [src/NetworkGraphVisualizer.js]: the React
    component's graph state ([nodes], [edges], the two input forms), its
    handlers ([addNode], [addEdge], [findShortestPath], [clearNetwork]) and
    the [dijkstra] closure.

    Modelling conventions.
    - JavaScript numbers are IEEE 754 doubles.  Every finite double is an
      integer multiple of 2^-1074, the least positive double, so a finite
      number is kept as that integer: [Fin k] is [k * 2^-1074].  Sums and
      differences are rounded to the nearest double, a tie going to the
      even one, and become an infinity from 2^1024 on; [parseFloat] rounds
      the decimal it reads in the same way.  [-0] is identified with [0]
      (the code neither divides nor prints a number).
    - JavaScript strings are [string]; the model is exact on ASCII text:
      [toUpperCase] maps the letters a-z and leaves every other character
      alone, and [parseFloat] skips ASCII white space only.
    - The two [DataSet]s are lists in insertion order; the generated [id]
      of an edge item is not modelled (nothing reads it).
    - The plain objects [distances] and [previous] are finite maps of
      their own properties.  A read of a key that is no own property
      finds the member of [Object.prototype] of that name, if there is
      one, and [undefined] otherwise.  A write creates or replaces an own
      property; this is exact for every key but [__proto__], which the
      component cannot produce (it upper-cases what is typed).
    - [null] and [undefined] are both [None] where only truthiness is
      observed ([current] in the reconstruction loop).
    - The two [while] loops take fuel; the theorems that say a result is
      returned exhibit enough fuel. *)

From Stdlib Require Import ZArith String Ascii List Lia Permutation Sorted.
From stdpp Require Import gmap strings.
Import ListNotations.

(** ** JavaScript numbers *)

(** [Fin k] is the finite number [k * 2^-1074].  The finite numbers that
    the code can hold are doubles ([double] below): [parseFloat] and [+]
    produce no other. *)
Inductive number : Type :=
| NaN
| NegInf
| Fin (k : Z)
| PosInf.

(** The number 1, in units of 2^-1074. *)
Definition one : Z := 2 ^ 1074.

(** 2^1024, the least power of two that is too large for a double. *)
Definition limit : Z := 2 ^ 2098.

(** [n / d] rounded to the nearest integer, a tie going to the even one
    ([0 < d]). *)
Definition nearest (n d : Z) : Z :=
  let q := (n / d)%Z in
  match (2 * (n mod d) ?= d)%Z with
  | Lt => q
  | Eq => if Z.even q then q else (q + 1)%Z
  | Gt => (q + 1)%Z
  end.

(** The doubles from [2^(52+s)] to [2^(53+s)] units are the multiples of
    [2^s] units: 53 significant bits.  Below [2^53] units, which is
    2^-1021, they are the multiples of one unit. *)
Definition spacing (k : Z) : Z := Z.max 0 (Z.log2 k - 52).

(** The double nearest to [n / d] units, for [0 <= n] and [0 < d]. *)
Definition round_ratio (n d : Z) : number :=
  let s := spacing (n / d) in
  let v := (nearest n (d * 2 ^ s) * 2 ^ s)%Z in
  if (limit <=? v)%Z then PosInf else Fin v.

(** Unary minus. *)
Definition num_neg (a : number) : number :=
  match a with
  | NaN => NaN
  | NegInf => PosInf
  | Fin x => Fin (- x)
  | PosInf => NegInf
  end.

(** The double nearest to [n / d] units, for [n] of either sign. *)
Definition round (n d : Z) : number :=
  if (n <? 0)%Z then num_neg (round_ratio (- n) d) else round_ratio n d.

(** [a + b] on numbers. *)
Definition num_add (a b : number) : number :=
  match a, b with
  | NaN, _ | _, NaN => NaN
  | PosInf, NegInf | NegInf, PosInf => NaN
  | PosInf, _ | _, PosInf => PosInf
  | NegInf, _ | _, NegInf => NegInf
  | Fin x, Fin y => round (x + y) 1
  end.

(** [a - b]. *)
Definition num_sub (a b : number) : number := num_add a (num_neg b).

(** [a < b]: false as soon as one side is [NaN]. *)
Definition num_lt (a b : number) : bool :=
  match a, b with
  | NaN, _ | _, NaN => false
  | _, NegInf => false
  | NegInf, _ => true
  | PosInf, _ => false
  | Fin _, PosInf => true
  | Fin x, Fin y => (x <? y)%Z
  end.

(** The order of the numbers that are not [NaN]. *)
Definition num_le (a b : number) : Prop :=
  match a, b with
  | NaN, _ | _, NaN => False
  | NegInf, _ => True
  | _, PosInf => True
  | Fin x, Fin y => (x <= y)%Z
  | _, _ => False
  end.

(** What rounding makes of [k] units, before the test for overflow. *)
Definition nearest_double (k : Z) : Z :=
  (nearest k (2 ^ spacing k) * 2 ^ spacing k)%Z.

(** [x] units is a double: rounding leaves it alone. *)
Definition double (x : Z) : Prop := round x 1 = Fin x.

(** The values a distance takes when weights are not negative. *)
Definition dist (n : number) : Prop :=
  n = PosInf \/ exists x, n = Fin x /\ (0 <= x)%Z /\ double x.

(** ** JavaScript strings *)

#[global] Instance In_string_dec (k : string) (l : list string) : Decision (In k l) :=
  in_dec String.string_dec k l.

(** Truthiness of a string: every string but the empty one. *)
Definition truthy (s : string) : bool := negb (s =? "")%string.

Definition upper_ascii (c : ascii) : ascii :=
  let n := N_of_ascii c in
  if ((97 <=? n) && (n <=? 122))%N then ascii_of_N (n - 32) else c.

(** [s.toUpperCase()]. *)
Fixpoint toUpperCase (s : string) : string :=
  match s with
  | EmptyString => EmptyString
  | String c r => String (upper_ascii c) (toUpperCase r)
  end.

(** *** [parseFloat] *)

Definition digit_of (c : ascii) : option N :=
  let n := N_of_ascii c in
  if ((48 <=? n) && (n <=? 57))%N then Some (n - 48)%N else None.

(** The longest run of decimal digits at the front of [s]: its value
    (continuing [acc]), how many digits were read, and the rest. *)
Fixpoint digits (s : string) (acc : N) (count : nat) : N * nat * string :=
  match s with
  | String c r =>
      match digit_of c with
      | Some d => digits r (10 * acc + d)%N (S count)
      | None => (acc, count, s)
      end
  | EmptyString => (acc, count, s)
  end.

Definition is_space (c : ascii) : bool :=
  let n := N_of_ascii c in
  ((9 <=? n) && (n <=? 13) || (n =? 32))%N.

Fixpoint skip_space (s : string) : string :=
  match s with
  | String c r => if is_space c then skip_space r else s
  | EmptyString => s
  end.

(** The exponent written by an [ExponentPart] at the front of [s]; 0 when
    there is no complete exponent part there. *)
Definition exponent (s : string) : Z :=
  match s with
  | String c r =>
      if ((c =? "e") || (c =? "E"))%char then
        let '(neg, r') :=
          match r with
          | String "+" r' => (false, r')
          | String "-" r' => (true, r')
          | _ => (false, r)
          end in
        let '(e, n, _) := digits r' 0 0 in
        match n with
        | O => 0%Z
        | S _ => if neg then (- Z.of_N e)%Z else Z.of_N e
        end
      else 0%Z
  | EmptyString => 0%Z
  end.

(** The number value of the decimal [m * 10^e]. *)
Definition decimal (m : N) (e : Z) : number :=
  if (0 <=? e)%Z then round_ratio (Z.of_N m * 10 ^ e * one) 1
  else round_ratio (Z.of_N m * one) (10 ^ (- e)).

(** The longest prefix of [s] that is a [StrUnsignedDecimalLiteral]. *)
Definition parse_unsigned (s : string) : number :=
  if String.prefix "Infinity" s then PosInf else
  let '(ip, n1, r1) := digits s 0 0 in
  match r1 with
  | String "." r2 =>
      let '(m, n2, r3) := digits r2 ip 0 in
      match n1, n2 with
      | O, O => NaN
      | _, _ => decimal m (exponent r3 - Z.of_nat n2)
      end
  | _ =>
      match n1 with
      | O => NaN
      | S _ => decimal ip (exponent r1)
      end
  end.

(** [parseFloat(s)] for a string [s]. *)
Definition parseFloat_string (s : string) : number :=
  match skip_space s with
  | String "+" r => parse_unsigned r
  | String "-" r => num_neg (parse_unsigned r)
  | t => parse_unsigned t
  end.

(** ** Plain objects *)

(** The property names that every plain object inherits. *)
Definition Object_prototype : list string :=
  ["constructor"; "__defineGetter__"; "__defineSetter__"; "hasOwnProperty";
   "__lookupGetter__"; "__lookupSetter__"; "isPrototypeOf";
   "propertyIsEnumerable"; "toString"; "valueOf"; "__proto__";
   "toLocaleString"]%string.

Definition inherited (k : string) : bool :=
  existsb (String.eqb k) Object_prototype.

(** What [o[k]] evaluates to: the object's own value, the member of
    [Object.prototype] named [k], or [undefined]. *)
Inductive read (A : Type) : Type :=
| Own (a : A)
| Member (k : string)
| Undefined.

Arguments Own {A} a.
Arguments Member {A} k.
Arguments Undefined {A}.

Definition get {A : Type} (o : gmap string A) (k : string) : read A :=
  match o !! k with
  | Some a => Own a
  | None => if inherited k then Member k else Undefined
  end.

(** [x + w] where [x] was read from [distances]: [undefined + w] is
    [NaN].  A member of [Object.prototype] would be concatenated with [w]
    into a string that is no numeral; the node taken from the queue always
    has an own distance, so that this case does not arise. *)
Definition js_add (x : read number) (w : number) : number :=
  match x with
  | Own a => num_add a w
  | Member _ => NaN
  | Undefined => NaN
  end.

(** [a < x] where [x] was read from [distances]: [undefined] and the
    members of [Object.prototype] convert to [NaN], and the comparison is
    false. *)
Definition js_lt (a : number) (x : read number) : bool :=
  match x with
  | Own b => num_lt a b
  | Member _ => false
  | Undefined => false
  end.

(** A truthy value of [current], and an element of [path]: a string, or a
    member of [Object.prototype]. *)
Inductive item : Type :=
| Id (s : string)
| Proto (k : string).

Definition item_truthy (c : item) : bool :=
  match c with
  | Id s => truthy s
  | Proto _ => true
  end.

(** The string a member of [Object.prototype] converts to when it is used
    as a property key: the prototype object itself for [__proto__], and a
    built-in function for every other name, printed as V8 prints it. *)
Definition member_text (k : string) : string :=
  if (k =? "__proto__")%string then "[object Object]"%string
  else ("function " ++ (if (k =? "constructor")%string then "Object" else k)
        ++ "() { [native code] }")%string.

Definition property_key (c : item) : string :=
  match c with
  | Id s => s
  | Proto k => member_text k
  end.

(** ** The data model *)

Module Node.
(** An item of the [nodes] DataSet: [{ id, label }]. *)
Record t : Type := mk { id : string; label : string }.
End Node.

Module Edge.
(** An item of the [edges] DataSet: [{ from, to, label, weight }]. *)
Record t : Type :=
  mk { from : string; to : string; label : string; weight : number }.
End Edge.

Module Graph.
(** The argument of [dijkstra]: [{ nodes: nodes.get(), edges: edges.get() }]. *)
Record t : Type := mk { nodes : list Node.t; edges : list Edge.t }.

Definition ids (g : t) : list string := map Node.id (nodes g).
End Graph.

(** The value held by [newEdge.weight]: the number [1] it is initialised
    and reset to, or the text of the weight input ([e.target.value]). *)
Inductive weight_input : Type :=
| One
| Typed (s : string).

(** [weight && ...] *)
Definition weight_truthy (w : weight_input) : bool :=
  match w with
  | One => true
  | Typed s => truthy s
  end.

(** [weight.toString()] *)
Definition weight_toString (w : weight_input) : string :=
  match w with
  | One => "1"
  | Typed s => s
  end.

(** [parseFloat(weight)]: the argument is first converted to a string. *)
Definition parseFloat (w : weight_input) : number :=
  parseFloat_string (weight_toString w).

Module Form.
(** The [newEdge] state: [{ from, to, weight }]. *)
Record t : Type := mk { from : string; to : string; weight : weight_input }.

Definition blank : t := mk "" "" One.
End Form.

(** What [dijkstra] returns: [{ path, distance: distances[endNode] }]. *)
Record result : Type :=
  { path : list item; distance : read number }.

(** The component's state. [shortestPath] is [None] for the initial [[]]. *)
Record state : Type :=
  { nodes : list Node.t;
    edges : list Edge.t;
    newNode : string;
    newEdge : Form.t;
    shortestPath : option result }.

Definition initial : state :=
  {| nodes := []; edges := []; newNode := ""; newEdge := Form.blank;
     shortestPath := None |}.

(** [nodes.get(id)]: the item with that id, [null] ([None]) if there is none. *)
Definition DataSet_get (ds : list Node.t) (i : string) : option Node.t :=
  find (fun n => (Node.id n =? i)%string) ds.

(** [ds.add(item)]; both call sites add an item whose id is not yet there. *)
Definition DataSet_add {A : Type} (item : A) (ds : list A) : list A :=
  ds ++ [item].

Definition setNewNode (v : string) (st : state) : state :=
  {| nodes := nodes st; edges := edges st; newNode := v;
     newEdge := newEdge st; shortestPath := shortestPath st |}.

Definition setNewEdge (f : Form.t) (st : state) : state :=
  {| nodes := nodes st; edges := edges st; newNode := newNode st;
     newEdge := f; shortestPath := shortestPath st |}.

Definition setShortestPath (r : option result) (st : state) : state :=
  {| nodes := nodes st; edges := edges st; newNode := newNode st;
     newEdge := newEdge st; shortestPath := r |}.

(** The [onChange] handlers of the four inputs. *)
Definition changeNode (v : string) (st : state) : state :=
  setNewNode (toUpperCase v) st.

Definition changeFrom (v : string) (st : state) : state :=
  setNewEdge (Form.mk (toUpperCase v) (Form.to (newEdge st))
                (Form.weight (newEdge st))) st.

Definition changeTo (v : string) (st : state) : state :=
  setNewEdge (Form.mk (Form.from (newEdge st)) (toUpperCase v)
                (Form.weight (newEdge st))) st.

Definition changeWeight (v : string) (st : state) : state :=
  setNewEdge (Form.mk (Form.from (newEdge st)) (Form.to (newEdge st))
                (Typed v)) st.

(** [addNode] *)
Definition addNode (st : state) : state :=
  if truthy (newNode st) && negb (bool_decide (is_Some (DataSet_get (nodes st) (newNode st))))
  then
    {| nodes := DataSet_add (Node.mk (newNode st) (newNode st)) (nodes st);
       edges := edges st;
       newNode := "";
       newEdge := newEdge st;
       shortestPath := shortestPath st |}
  else st.

(** [addEdge] *)
Definition addEdge (st : state) : state :=
  let from := Form.from (newEdge st) in
  let to := Form.to (newEdge st) in
  let weight := Form.weight (newEdge st) in
  if truthy from && truthy to && weight_truthy weight
     && bool_decide (is_Some (DataSet_get (nodes st) from))
     && bool_decide (is_Some (DataSet_get (nodes st) to))
  then
    {| nodes := nodes st;
       edges := DataSet_add
                  (Edge.mk from to (weight_toString weight) (parseFloat weight))
                  (edges st);
       newNode := newNode st;
       newEdge := Form.blank;
       shortestPath := shortestPath st |}
  else st.

(** [clearNetwork] *)
Definition clearNetwork (st : state) : state :=
  {| nodes := []; edges := []; newNode := newNode st;
     newEdge := newEdge st; shortestPath := None |}.

(** The snapshot handed to [dijkstra]. *)
Definition snapshot (st : state) : Graph.t :=
  Graph.mk (nodes st) (edges st).

(** ** Dijkstra's algorithm *)

Module Entry.
(** An element of the [pq] array: [{ node, distance }]. *)
Record t : Type := mk { node : string; distance : number }.
End Entry.

(** The local variables of [dijkstra] that the main loop updates. *)
Record vars : Type :=
  { distances : gmap string number;
    previous : gmap string (option string);
    pq : list Entry.t }.

(** The comparator handed to [pq.sort]: [a.distance - b.distance]. *)
Definition comparator (a b : Entry.t) : number :=
  num_sub (Entry.distance a) (Entry.distance b).

(** [Array.prototype.sort] is stable and moves [b] in front of [a] exactly
    when the comparator's value at [(a, b)] is positive; on the keys that
    occur here any stable sort gives the same array, so it is modelled as
    an insertion sort. *)
Fixpoint insert_sorted (a : Entry.t) (l : list Entry.t) : list Entry.t :=
  match l with
  | [] => [a]
  | b :: r =>
      if num_lt (Fin 0) (comparator a b) then b :: insert_sorted a r
      else a :: l
  end.

Fixpoint sort (l : list Entry.t) : list Entry.t :=
  match l with
  | [] => []
  | a :: r => insert_sorted a (sort r)
  end.

(** The body of [graph.nodes.forEach] in the initialisation. *)
Definition init_node (v : vars) (n : Node.t) : vars :=
  {| distances := <[Node.id n := PosInf]> (distances v);
     previous := <[Node.id n := None]> (previous v);
     pq := pq v |}.

(** The state on entry to the main loop. *)
Definition initialise (g : Graph.t) (startNode : string) : vars :=
  let v := fold_left init_node (Graph.nodes g)
             {| distances := ∅; previous := ∅; pq := [] |} in
  {| distances := <[startNode := Fin 0]> (distances v);
     previous := previous v;
     pq := pq v ++ [Entry.mk startNode (Fin 0)] |}.

(** The body of [graph.edges.forEach] for the extracted [node]. *)
Definition relax (node : string) (v : vars) (edge : Edge.t) : vars :=
  if ((Edge.from edge =? node) || (Edge.to edge =? node))%string then
    let neighbor :=
      if (Edge.from edge =? node)%string then Edge.to edge else Edge.from edge in
    let distance := js_add (get (distances v) node) (Edge.weight edge) in
    if js_lt distance (get (distances v) neighbor) then
      {| distances := <[neighbor := distance]> (distances v);
         previous := <[neighbor := Some node]> (previous v);
         pq := pq v ++ [Entry.mk neighbor distance] |}
    else v
  else v.

(** [while (pq.length) { ... }] *)
Fixpoint search (fuel : nat) (g : Graph.t) (endNode : string) (v : vars)
  : option vars :=
  match fuel with
  | O => None
  | S fuel' =>
      match sort (pq v) with
      | [] => Some v
      | top :: rest =>
          let v' := {| distances := distances v; previous := previous v;
                       pq := rest |} in
          if (Entry.node top =? endNode)%string then Some v'
          else search fuel' g endNode
                 (fold_left (relax (Entry.node top)) (Graph.edges g) v')
      end
  end.

(** [previous[current]], up to truthiness: the own value when there is
    one, else the member of [Object.prototype] of that name, else
    [undefined]. *)
Definition predecessor (previous : gmap string (option string)) (current : item)
  : option item :=
  match get previous (property_key current) with
  | Own (Some p) => Some (Id p)
  | Own None => None
  | Member k => Some (Proto k)
  | Undefined => None
  end.

(** [while (current) { path.unshift(current); current = previous[current]; }] *)
Fixpoint reconstruct (fuel : nat) (previous : gmap string (option string))
  (current : option item) (path : list item) : option (list item) :=
  match fuel with
  | O => None
  | S fuel' =>
      match current with
      | Some c =>
          if item_truthy c
          then reconstruct fuel' previous (predecessor previous c) (c :: path)
          else Some path
      | None => Some path
      end
  end.

(** [dijkstra(graph, startNode, endNode)] *)
Definition dijkstra (fuel : nat) (graph : Graph.t) (startNode endNode : string)
  : option result :=
  match search fuel graph endNode (initialise graph startNode) with
  | Some v =>
      match reconstruct fuel (previous v) (Some (Id endNode)) [] with
      | Some p => Some {| path := p; distance := get (distances v) endNode |}
      | None => None
      end
  | None => None
  end.

(** [findShortestPath] *)
Definition findShortestPath (fuel : nat) (st : state) : option state :=
  let from := Form.from (newEdge st) in
  let to := Form.to (newEdge st) in
  if truthy from && truthy to then
    match dijkstra fuel (snapshot st) from to with
    | Some r => Some (setShortestPath (Some r) st)
    | None => None
    end
  else Some st.

(** ** The store as the specification names its operations *)

(** [addNode(id)], [addEdge(from, to, weight)] and [clear()]: the form
    state is set to the arguments and the handler is run. *)
Inductive op : Type :=
| AddNode (id : string)
| AddEdge (from to : string) (weight : weight_input)
| Clear.

Definition apply (st : state) (o : op) : state :=
  match o with
  | AddNode x => addNode (setNewNode x st)
  | AddEdge f t w => addEdge (setNewEdge (Form.mk f t w) st)
  | Clear => clearNetwork st
  end.

(** The state after a sequence of operations on the initial component. *)
Definition run (ops : list op) : state := fold_left apply ops initial.

Definition ids (st : state) : list string := map Node.id (nodes st).

(** The integrity of the store: ids are distinct and non-empty, and each
    edge joins two nodes. *)
Definition integral (st : state) : Prop :=
  NoDup (ids st) /\
  (forall i, In i (ids st) -> i <> ""%string) /\
  (forall e, In e (edges st) -> In (Edge.from e) (ids st) /\ In (Edge.to e) (ids st)).

(** A weight is a valid non-negative number when [parseFloat] reads a
    finite value that is at least 0. *)
Definition valid_weight (w : weight_input) : Prop :=
  exists q, parseFloat w = Fin q /\ (0 <= q)%Z.

(** ** Graphs, routes and costs *)

(** What the store guarantees of a snapshot: no empty id, and every edge
    joins two nodes of the graph. *)
Definition valid_snapshot (g : Graph.t) : Prop :=
  (forall i, In i (Graph.ids g) -> i <> ""%string) /\
  (forall e, In e (Graph.edges g) ->
             In (Edge.from e) (Graph.ids g) /\ In (Edge.to e) (Graph.ids g)).

Definition nonneg_weights (g : Graph.t) : Prop :=
  forall e, In e (Graph.edges g) -> exists w, Edge.weight e = Fin w /\ (0 <= w)%Z.

(** The edge [e] joins [u] and [v], in either direction. *)
Definition joins (e : Edge.t) (u v : string) : Prop :=
  (Edge.from e = u /\ Edge.to e = v) \/ (Edge.from e = v /\ Edge.to e = u).

Definition joinsb (e : Edge.t) (u v : string) : bool :=
  ((Edge.from e =? u) && (Edge.to e =? v) || (Edge.from e =? v) && (Edge.to e =? u))%string.

(** [route g s p t c]: [p] lists the nodes of an undirected walk from [s]
    to [t] along edges of [g], and [c] is the sum of the weights of those
    edges, added from left to right as doubles. *)
Inductive route (g : Graph.t) (s : string) : list string -> string -> number -> Prop :=
| route_start : route g s [s] s (Fin 0)
| route_step p u v e c :
    route g s p u c ->
    In e (Graph.edges g) -> joins e u v ->
    route g s (p ++ [v]) v (num_add c (Edge.weight e)).

(** The least finite weight among the edges of [es] that join [u] and [v]. *)
Fixpoint link_weight (es : list Edge.t) (u v : string) : option Z :=
  match es with
  | [] => None
  | e :: r =>
      if joinsb e u v then
        match Edge.weight e, link_weight r u v with
        | Fin w, Some m => Some (Z.min w m)
        | Fin w, None => Some w
        | _, o => o
        end
      else link_weight r u v
  end.

(** The sum, added to [acc] from left to right as doubles, of the weights
    of the edges joining the consecutive pairs of [p]; [None] when some
    pair is not joined. *)
Fixpoint path_cost_from (g : Graph.t) (acc : number) (p : list string)
  : option number :=
  match p with
  | u :: ((v :: _) as r) =>
      match link_weight (Graph.edges g) u v with
      | Some w => path_cost_from g (num_add acc (Fin w)) r
      | None => None
      end
  | _ => Some acc
  end.

Definition path_cost (g : Graph.t) (p : list string) : option number :=
  path_cost_from g (Fin 0) p.

(** A cost that is no finite number: [Infinity], or [undefined]. *)
Definition unreachable (d : read number) : Prop :=
  d = Own PosInf \/ d = Undefined.

(** The graph of the specification's example. *)
Definition triangle : Graph.t :=
  Graph.mk [Node.mk "A" "A"; Node.mk "B" "B"; Node.mk "C" "C"]
    [Edge.mk "A" "B" "1" (Fin one); Edge.mk "B" "C" "1" (Fin one);
     Edge.mk "A" "C" "5" (Fin (5 * one))].

(** The graph with the single node [A] and no edge. *)
Definition lonely : Graph.t := Graph.mk [Node.mk "A" "A"] [].

(** ** The component as its user drives it *)

(** What the user can do to the graph: change one of the four inputs, or
    click one of the three buttons that edit the store. *)
Inductive event : Type :=
| ChangeNode (v : string)
| ChangeFrom (v : string)
| ChangeTo (v : string)
| ChangeWeight (v : string)
| ClickAddNode
| ClickAddEdge
| ClickClear.

Definition handle (st : state) (ev : event) : state :=
  match ev with
  | ChangeNode v => changeNode v st
  | ChangeFrom v => changeFrom v st
  | ChangeTo v => changeTo v st
  | ChangeWeight v => changeWeight v st
  | ClickAddNode => addNode st
  | ClickAddEdge => addEdge st
  | ClickClear => clearNetwork st
  end.

(** The state after a sequence of events on the initial component. *)
Definition session (evs : list event) : state := fold_left handle evs initial.

(** An ASCII lower-case letter. *)
Definition is_lower (c : ascii) : bool :=
  let n := N_of_ascii c in ((97 <=? n) && (n <=? 122))%N.

Fixpoint has_lower (s : string) : bool :=
  match s with
  | EmptyString => false
  | String c r => is_lower c || has_lower r
  end.

(** The nodes A, B, C joined in a line by two edges of weight 1e308, with
    A and C typed into the two fields of the path query. *)
Definition heavy_line : list event :=
  [ChangeNode "a"; ClickAddNode; ChangeNode "b"; ClickAddNode;
   ChangeNode "c"; ClickAddNode;
   ChangeFrom "a"; ChangeTo "b"; ChangeWeight "1e308"; ClickAddEdge;
   ChangeFrom "b"; ChangeTo "c"; ChangeWeight "1e308"; ClickAddEdge;
   ChangeFrom "a"; ChangeTo "c"].

(** The specification's example as the user builds it: the nodes A, B, C,
    the edges A-B and B-C of weight 1 and A-C of weight 5, and then A and
    C typed into the two fields of the path query. *)
Definition triangle_clicks : list event :=
  [ChangeNode "a"; ClickAddNode; ChangeNode "b"; ClickAddNode;
   ChangeNode "c"; ClickAddNode;
   ChangeFrom "a"; ChangeTo "b"; ClickAddEdge;
   ChangeFrom "b"; ChangeTo "c"; ClickAddEdge;
   ChangeFrom "a"; ChangeTo "c"; ChangeWeight "5"; ClickAddEdge;
   ChangeFrom "a"; ChangeTo "c"].

(** The same graph with its edges added in another order. *)
Definition triangle_reordered : list event :=
  [ChangeNode "a"; ClickAddNode; ChangeNode "b"; ClickAddNode;
   ChangeNode "c"; ClickAddNode;
   ChangeFrom "a"; ChangeTo "c"; ChangeWeight "5"; ClickAddEdge;
   ChangeFrom "b"; ChangeTo "c"; ClickAddEdge;
   ChangeFrom "a"; ChangeTo "b"; ClickAddEdge;
   ChangeFrom "a"; ChangeTo "c"].

(** The nodes A and B joined by an edge of weight 5, and a query from A
    to B. *)
Definition pair_clicks : list event :=
  [ChangeNode "a"; ClickAddNode; ChangeNode "b"; ClickAddNode;
   ChangeFrom "a"; ChangeTo "b"; ChangeWeight "5"; ClickAddEdge;
   ChangeFrom "a"; ChangeTo "b"].

(** A second edge between A and B, of weight 2, and the same query. *)
Definition second_edge : list event :=
  [ChangeFrom "a"; ChangeTo "b"; ChangeWeight "2"; ClickAddEdge;
   ChangeFrom "a"; ChangeTo "b"].

(** The nodes A, B, C, D joined in a line by edges of weight 0.1, 0.2 and
    0.3. *)
Definition decimal_line : list event :=
  [ChangeNode "a"; ClickAddNode; ChangeNode "b"; ClickAddNode;
   ChangeNode "c"; ClickAddNode; ChangeNode "d"; ClickAddNode;
   ChangeFrom "a"; ChangeTo "b"; ChangeWeight "0.1"; ClickAddEdge;
   ChangeFrom "b"; ChangeTo "c"; ChangeWeight "0.2"; ClickAddEdge;
   ChangeFrom "c"; ChangeTo "d"; ChangeWeight "0.3"; ClickAddEdge].

(** The single node A, and a query from A to B. *)
Definition lonely_clicks : list event :=
  [ChangeNode "a"; ClickAddNode; ChangeFrom "a"; ChangeTo "b"].

(** Every weight handed to [addEdge] in [ops] is a valid non-negative
    number. *)
Definition valid_weights (ops : list op) : Prop :=
  forall f t w, In (AddEdge f t w) ops -> valid_weight w.

(** Edges that no relaxation can use: a weight that is [NaN] or
    [Infinity], or a loop of non-negative weight. *)
Definition inert (e : Edge.t) : Prop :=
  Edge.weight e = NaN \/ Edge.weight e = PosInf \/
  (Edge.from e = Edge.to e /\ exists w, Edge.weight e = Fin w /\ (0 <= w)%Z).

(** The entries of a queue whose key equals [k]. *)
Definition same_key (k : Z) (e : Entry.t) : bool :=
  match Entry.distance e with
  | Fin x => (x =? k)%Z
  | _ => false
  end.

(** What a session keeps true: the store's integrity, and no lower-case
    letter in a stored id or in the node input. *)
Definition tidy (st : state) : Prop :=
  integral st /\
  (forall i, In i (ids st) -> has_lower i = false) /\
  has_lower (newNode st) = false.

(** No lower-case letter in the two fields of a path query. *)
Definition upper_form (st : state) : Prop :=
  has_lower (Form.from (newEdge st)) = false /\
  has_lower (Form.to (newEdge st)) = false.

(** Every node in the queue has an own distance. *)
Definition owned (v : vars) : Prop :=
  forall e, In e (pq v) -> is_Some (distances v !! Entry.node e).

(** Every finite distance in [v] is a double. *)
Definition rounded (v : vars) : Prop :=
  forall k x, distances v !! k = Some (Fin x) -> double x.

(** ** The loop invariant of [search] *)

(** [linked g s done d prev v p c]: following [prev] back from [v] visits
    the nodes of [p] in reverse and ends at [s]; every node before [v] is
    in [done] and its distance is the sum, added from left to right as
    doubles, of the weights up to it. *)
Inductive linked (g : Graph.t) (s : string) (done : gset string)
  (d : gmap string number) (prev : gmap string (option string))
  : string -> list string -> Z -> Prop :=
| linked_start :
    s <> ""%string -> predecessor prev (Id s) = None ->
    linked g s done d prev s [s] 0
| linked_step u v p c e w c' :
    linked g s done d prev u p c ->
    u ∈ done -> d !! u = Some (Fin c) ->
    v <> ""%string -> prev !! v = Some (Some u) ->
    In e (Graph.edges g) -> joins e u v -> Edge.weight e = Fin w ->
    num_add (Fin c) (Fin w) = Fin c' ->
    linked g s done d prev v (p ++ [v]) c'.

(** The part of the invariant that does not mention the queue.  [done] is
    the set of nodes extracted so far; [cur] is the node being expanded
    and [seen] the edges already examined for it. *)
Record core (g : Graph.t) (s : string) (done : gset string) (cur : string)
  (seen : list Edge.t) (v : vars) : Prop :=
  { core_source : distances v !! s = Some (Fin 0);
    core_range : forall k n, distances v !! k = Some n -> dist n;
    core_nodes : forall k, In k (Graph.ids g) -> is_Some (distances v !! k);
    core_done : forall k, k ∈ done -> exists x, distances v !! k = Some (Fin x);
    core_prev : forall k u, previous v !! k = Some (Some u) ->
        exists x, distances v !! k = Some (Fin x);
    core_linked : forall k x, distances v !! k = Some (Fin x) ->
        exists p, linked g s done (distances v) (previous v) k p x;
    core_relaxed : forall k e n w,
        k ∈ done -> In e (Graph.edges g) -> (k = cur -> In e seen) ->
        joins e k n -> Edge.weight e = Fin w ->
        exists y m, distances v !! k = Some (Fin y) /\
                    distances v !! n = Some m /\
                    num_le m (num_add (Fin y) (Fin w));
    core_keys : forall k, is_Some (distances v !! k) ->
        In k (Graph.ids g) \/ k = s;
    core_links : forall k, In k (Graph.ids g) -> is_Some (previous v !! k) }.

(** The part of the invariant that ties the queue to the distances. *)
Record queued (done : gset string) (v : vars) : Prop :=
  { queued_fresh : forall k x, k ∉ done -> distances v !! k = Some (Fin x) ->
        In (Entry.mk k (Fin x)) (pq v);
    queued_keys : forall e, In e (pq v) ->
        exists k x, Entry.distance e = Fin k /\
                    distances v !! Entry.node e = Some (Fin x) /\ (x <= k)%Z;
    queued_order : forall e j, In e (pq v) -> j ∈ done ->
        exists k y, Entry.distance e = Fin k /\
                    distances v !! j = Some (Fin y) /\ (y <= k)%Z }.

(** While [cur] is expanded, no extracted node is farther than [cur]. *)
Definition farthest (done : gset string) (cur : string) (v : vars) : Prop :=
  cur ∈ done /\
  forall j, j ∈ done ->
    exists y z, distances v !! j = Some (Fin y) /\
                distances v !! cur = Some (Fin z) /\ (y <= z)%Z.

(** The quantity that decreases with every iteration of [search]. *)
Definition budget (g : Graph.t) (done : gset string) (v : vars) : nat :=
  length (pq v) + length (Graph.edges g) * size (dom (distances v) ∖ done).

(** What holds of the variables when [search] stops: the invariant, and
    the distance of [t] is at most the cost of every route to [t]. *)
Definition settled (g : Graph.t) (s t : string) (v : vars) : Prop :=
  (exists done, core g s done s (Graph.edges g) v) /\
  (forall p c, route g s p t c ->
     c = PosInf \/
     exists x, distances v !! t = Some (Fin x) /\ num_le (Fin x) c).

(** Two entries with finite keys, the first key no larger than the second. *)
Definition key_le (a b : Entry.t) : Prop :=
  exists x y, Entry.distance a = Fin x /\ Entry.distance b = Fin y /\ (x <= y)%Z.

Definition head_least (l : list Entry.t) : Prop :=
  match l with
  | [] => True
  | a :: r => forall e, In e r -> key_le a e
  end.

(** The variables after a successful relaxation of [n] from [u]. *)
Definition updated (v : vars) (u n : string) (x : Z) : vars :=
  {| distances := <[n := Fin x]> (distances v);
     previous := <[n := Some u]> (previous v);
     pq := pq v ++ [Entry.mk n (Fin x)] |}.

(** The variables once the head of the sorted queue has been shifted off. *)
Definition dequeued (v : vars) (rest : list Entry.t) : vars :=
  {| distances := distances v; previous := previous v; pq := rest |}.

(** * Numbers *)

(** ** Rounding *)

Section Rounding.

Local Open Scope Z_scope.

Lemma nearest_cases (n d : Z) :
  0 < d ->
  exists q r, n = d * q + r /\ 0 <= r < d /\
    (nearest n d = q \/ (nearest n d = q + 1 /\ 0 < r)) /\
    (2 * r < d -> nearest n d = q) /\ (d < 2 * r -> nearest n d = q + 1).
Proof.
  intros Hd. exists (n / d), (n mod d).
  pose proof (Z.div_mod n d ltac:(lia)) as Hdm.
  pose proof (Z.mod_pos_bound n d Hd) as Hb.
  split; [exact Hdm|]. split; [exact Hb|].
  unfold nearest. destruct (Z.compare_spec (2 * (n mod d)) d) as [E|E|E].
  - split; [|split; intros; lia].
    destruct (Z.even (n / d)); [left; reflexivity | right; split; [reflexivity | lia]].
  - split; [left; reflexivity|]. split; intros; [reflexivity | lia].
  - split; [right; split; [reflexivity | lia]|]. split; intros; [lia | reflexivity].
Qed.

Lemma nearest_lower (a n d : Z) : 0 < d -> a * d <= n -> a <= nearest n d.
Proof.
  intros Hd Ha. destruct (nearest_cases n d Hd) as (q & r & Hn & Hr & [E|[E _]] & _);
    rewrite E; nia.
Qed.

Lemma nearest_upper (b n d : Z) : 0 < d -> n <= b * d -> nearest n d <= b.
Proof.
  intros Hd Hb. destruct (nearest_cases n d Hd) as (q & r & Hn & Hr & [E|[E Hpos]] & _);
    rewrite E; nia.
Qed.

Lemma nearest_exact (a d : Z) : 0 < d -> nearest (a * d) d = a.
Proof.
  intros Hd. apply Z.le_antisymm.
  - apply nearest_upper; [exact Hd | lia].
  - apply nearest_lower; [exact Hd | lia].
Qed.

Lemma nearest_mono (n1 n2 d : Z) :
  0 < d -> n1 <= n2 -> nearest n1 d <= nearest n2 d.
Proof.
  intros Hd Hle. destruct (Z.eq_dec n1 n2) as [->|Hne]; [lia|].
  destruct (nearest_cases n1 d Hd) as (q1 & r1 & Hn1 & Hr1 & H1 & Hlo1 & Hhi1).
  destruct (nearest_cases n2 d Hd) as (q2 & r2 & Hn2 & Hr2 & H2 & Hlo2 & Hhi2).
  assert (Hq : q1 <= q2) by nia.
  destruct (Z.eq_dec q1 q2) as [Eq|Eq].
  - subst q2. assert (Hr : r1 < r2) by lia.
    destruct (Z_lt_le_dec (2 * r1) d) as [Hl|Hl]; [rewrite (Hlo1 Hl); destruct H2 as [->|[-> _]]; lia|].
    rewrite (Hhi2 ltac:(lia)). destruct H1 as [->|[-> _]]; lia.
  - destruct H1 as [->|[-> _]]; destruct H2 as [->|[-> _]]; lia.
Qed.

Lemma spacing_nonneg (k : Z) : 0 <= spacing k.
Proof. unfold spacing. lia. Qed.

Lemma spacing_mono (k1 k2 : Z) : k1 <= k2 -> spacing k1 <= spacing k2.
Proof.
  intros H. unfold spacing. pose proof (Z.log2_le_mono k1 k2 H). lia.
Qed.

Lemma spacing_upper (k : Z) : k < 2 ^ 53 * 2 ^ spacing k.
Proof.
  pose proof (spacing_nonneg k) as Hs.
  rewrite <- Z.pow_add_r by lia.
  destruct (Z_lt_le_dec 0 k) as [Hk|Hk].
  - destruct (Z.log2_spec k Hk) as [_ Hu].
    apply (Z.lt_le_trans _ _ _ Hu). apply Z.pow_le_mono_r; [lia|].
    unfold spacing. lia.
  - pose proof (Z.pow_pos_nonneg 2 (53 + spacing k)). lia.
Qed.

Lemma spacing_lower (k : Z) : 0 < spacing k -> 2 ^ 52 * 2 ^ spacing k <= k.
Proof.
  intros Hs. rewrite <- Z.pow_add_r by lia.
  assert (Hk : 0 < k).
  { destruct (Z_lt_le_dec 0 k) as [H|H]; [exact H|].
    unfold spacing in Hs. rewrite (Z.log2_nonpos k H) in Hs. lia. }
  destruct (Z.log2_spec k Hk) as [Hl _].
  replace (52 + spacing k) with (Z.log2 k) by (unfold spacing in *; lia).
  exact Hl.
Qed.

Lemma nearest_double_bounds (k : Z) :
  0 <= k ->
  0 <= nearest_double k <= 2 ^ 53 * 2 ^ spacing k /\
  (0 < spacing k -> 2 ^ 52 * 2 ^ spacing k <= nearest_double k).
Proof.
  intros Hk. unfold nearest_double.
  pose proof (spacing_nonneg k) as Hs.
  assert (Hp : 0 < 2 ^ spacing k) by (apply Z.pow_pos_nonneg; lia).
  pose proof (spacing_upper k) as Hu.
  pose proof (nearest_lower 0 k _ Hp ltac:(lia)) as H0.
  pose proof (nearest_upper (2 ^ 53) k _ Hp ltac:(lia)) as H1.
  split; [nia|].
  intros Hpos. pose proof (spacing_lower k Hpos) as Hl.
  pose proof (nearest_lower (2 ^ 52) k _ Hp Hl). nia.
Qed.

Lemma nearest_double_small (k : Z) : spacing k = 0 -> nearest_double k = k.
Proof.
  intros E. unfold nearest_double. rewrite E.
  change (2 ^ 0) with 1. rewrite Z.mul_1_r.
  rewrite <- (Z.mul_1_r k) at 1. apply nearest_exact. lia.
Qed.

Lemma nearest_double_mono (k1 k2 : Z) :
  0 <= k1 -> k1 <= k2 -> nearest_double k1 <= nearest_double k2.
Proof.
  intros H1 Hle.
  pose proof (spacing_mono k1 k2 Hle) as Hs.
  pose proof (spacing_nonneg k1) as Hs1.
  destruct (Z.eq_dec (spacing k1) (spacing k2)) as [E|E].
  - unfold nearest_double. rewrite E.
    assert (Hp : 0 < 2 ^ spacing k2) by (apply Z.pow_pos_nonneg; lia).
    pose proof (nearest_mono k1 k2 _ Hp Hle). nia.
  - destruct (nearest_double_bounds k1 H1) as [[_ Hu] _].
    destruct (nearest_double_bounds k2 ltac:(lia)) as [_ Hl].
    specialize (Hl ltac:(lia)).
    assert (Hpow : 2 ^ 53 * 2 ^ spacing k1 <= 2 ^ 52 * 2 ^ spacing k2).
    { rewrite <- !Z.pow_add_r by lia. apply Z.pow_le_mono_r; lia. }
    lia.
Qed.

Lemma spacing_scaled (n s : Z) :
  0 < s -> 2 ^ 52 <= n < 2 ^ 53 -> spacing (n * 2 ^ s) = s.
Proof.
  intros Hs Hn. unfold spacing.
  rewrite Z.log2_mul_pow2 by lia.
  rewrite (Z.log2_unique n 52) by lia. lia.
Qed.

Lemma nearest_double_fixed (k : Z) :
  0 <= k -> nearest_double (nearest_double k) = nearest_double k.
Proof.
  intros Hk. pose proof (spacing_nonneg k) as Hs.
  destruct (Z.eq_dec (spacing k) 0) as [E|E].
  - rewrite (nearest_double_small k E). exact (nearest_double_small k E).
  - destruct (nearest_double_bounds k Hk) as [[_ Hu] Hl].
    specialize (Hl ltac:(lia)).
    assert (Hp : 0 < 2 ^ spacing k) by (apply Z.pow_pos_nonneg; lia).
    unfold nearest_double in *.
    set (s := spacing k) in *. set (n := nearest k (2 ^ s)) in *.
    assert (Hn : 2 ^ 52 <= n <= 2 ^ 53).
    { split; [apply (Z.mul_le_mono_pos_r _ _ (2 ^ s) Hp), Hl | apply (Z.mul_le_mono_pos_r _ _ (2 ^ s) Hp), Hu]. }
    destruct (Z.eq_dec n (2 ^ 53)) as [En|En].
    + assert (Ev : n * 2 ^ s = 2 ^ 52 * 2 ^ (s + 1)).
      { rewrite En, Z.pow_add_r by lia. change (2 ^ 53) with (2 ^ 52 * 2). change (2 ^ 1) with 2. ring. }
      rewrite Ev. rewrite spacing_scaled by lia.
      rewrite nearest_exact; [reflexivity | apply Z.pow_pos_nonneg; lia].
    + rewrite spacing_scaled by lia.
      rewrite nearest_exact by exact Hp. reflexivity.
Qed.

Lemma nearest_double_positive (k : Z) : 0 < k -> 0 < nearest_double k.
Proof.
  intros Hk. pose proof (spacing_nonneg k) as Hs.
  destruct (Z.eq_dec (spacing k) 0) as [E|E].
  - now rewrite (nearest_double_small k E).
  - destruct (nearest_double_bounds k ltac:(lia)) as [_ Hl].
    specialize (Hl ltac:(lia)).
    assert (0 < 2 ^ 52 * 2 ^ spacing k) by (apply Z.mul_pos_pos; apply Z.pow_pos_nonneg; lia).
    lia.
Qed.

Lemma round_ratio_unit (k : Z) :
  round_ratio k 1 = if limit <=? nearest_double k then PosInf else Fin (nearest_double k).
Proof.
  unfold round_ratio, nearest_double. now rewrite Z.div_1_r, Z.mul_1_l.
Qed.


Lemma limit_positive : 0 < limit.
Proof. reflexivity. Qed.

Lemma round_nonneg (k : Z) :
  0 <= k ->
  round k 1 = if limit <=? nearest_double k then PosInf else Fin (nearest_double k).
Proof.
  intros Hk. unfold round. rewrite (proj2 (Z.ltb_ge k 0) Hk). apply round_ratio_unit.
Qed.

Lemma round_negative (k : Z) :
  k < 0 ->
  round k 1 = if limit <=? nearest_double (- k) then NegInf
              else Fin (- nearest_double (- k)).
Proof.
  intros Hk. unfold round. rewrite (proj2 (Z.ltb_lt k 0) Hk), round_ratio_unit.
  now destruct (limit <=? nearest_double (- k)).
Qed.

Lemma num_le_trans (a b c : number) : num_le a b -> num_le b c -> num_le a c.
Proof. destruct a, b, c; simpl; try tauto; lia. Qed.

Lemma round_mono (k1 k2 : Z) : k1 <= k2 -> num_le (round k1 1) (round k2 1).
Proof.
  intros Hle. pose proof limit_positive as Hl.
  destruct (Z_lt_le_dec k1 0) as [H1|H1]; destruct (Z_lt_le_dec k2 0) as [H2|H2];
    try lia.
  - rewrite (round_negative k1 H1), (round_negative k2 H2).
    pose proof (nearest_double_mono (- k2) (- k1) ltac:(lia) ltac:(lia)).
    destruct (Z.leb_spec limit (nearest_double (- k1)));
      destruct (Z.leb_spec limit (nearest_double (- k2))); simpl; try exact I; lia.
  - rewrite (round_negative k1 H1), (round_nonneg k2 H2).
    destruct (nearest_double_bounds (- k1) ltac:(lia)) as [[? _] _].
    destruct (nearest_double_bounds k2 H2) as [[? _] _].
    destruct (Z.leb_spec limit (nearest_double (- k1)));
      destruct (Z.leb_spec limit (nearest_double k2)); simpl; try exact I; lia.
  - rewrite (round_nonneg k1 H1), (round_nonneg k2 H2).
    pose proof (nearest_double_mono k1 k2 H1 Hle).
    destruct (Z.leb_spec limit (nearest_double k1));
      destruct (Z.leb_spec limit (nearest_double k2)); simpl; try exact I; lia.
Qed.

Lemma round_fixed (k v : Z) : round k 1 = Fin v -> double v.
Proof.
  unfold double. pose proof limit_positive as Hl.
  destruct (Z_lt_le_dec k 0) as [Hk|Hk].
  - rewrite (round_negative k Hk).
    destruct (Z.leb_spec limit (nearest_double (- k))) as [H|H]; [discriminate|].
    intros E. injection E as <-.
    pose proof (nearest_double_fixed (- k) ltac:(lia)) as Hf.
    destruct (nearest_double_bounds (- k) ltac:(lia)) as [[H0 _] _].
    destruct (Z.eq_dec (nearest_double (- k)) 0) as [E0|E0].
    + rewrite E0. reflexivity.
    + rewrite round_negative by lia. rewrite Z.opp_involutive, Hf.
      now rewrite (proj2 (Z.leb_gt _ _) H).
  - rewrite (round_nonneg k Hk).
    destruct (Z.leb_spec limit (nearest_double k)) as [H|H]; [discriminate|].
    intros E. injection E as <-.
    destruct (nearest_double_bounds k Hk) as [[H0 _] _].
    rewrite round_nonneg by exact H0.
    rewrite (nearest_double_fixed k Hk). now rewrite (proj2 (Z.leb_gt _ _) H).
Qed.

Lemma round_positive (k : Z) : num_lt (Fin 0) (round k 1) = (0 <? k).
Proof.
  pose proof limit_positive as Hl.
  destruct (Z_lt_le_dec k 0) as [Hk|Hk].
  - rewrite (round_negative k Hk), (proj2 (Z.ltb_ge 0 k)) by lia.
    destruct (nearest_double_bounds (- k) ltac:(lia)) as [[H0 _] _].
    destruct (limit <=? nearest_double (- k)); simpl; [reflexivity|].
    apply Z.ltb_ge. lia.
  - rewrite (round_nonneg k Hk).
    destruct (Z.eq_dec k 0) as [->|Hne]; [reflexivity|].
    pose proof (nearest_double_positive k ltac:(lia)).
    rewrite (proj2 (Z.ltb_lt 0 k)) by lia.
    destruct (limit <=? nearest_double k); simpl; [reflexivity|].
    apply Z.ltb_lt. lia.
Qed.

Lemma round_not_NaN (k : Z) : round k 1 <> NaN.
Proof.
  destruct (Z_lt_le_dec k 0) as [Hk|Hk].
  - rewrite (round_negative k Hk). now destruct (limit <=? _).
  - rewrite (round_nonneg k Hk). now destruct (limit <=? _).
Qed.

Lemma dist_zero : dist (Fin 0).
Proof. right. exists 0. split; [reflexivity|]. split; [lia | reflexivity]. Qed.

Lemma extend_cases (z w : Z) :
  0 <= z -> double z -> 0 <= w ->
  num_add (Fin z) (Fin w) = PosInf \/
  exists z', num_add (Fin z) (Fin w) = Fin z' /\ z <= z' /\ double z'.
Proof.
  intros Hz Hd Hw. cbn [num_add].
  pose proof (round_mono z (z + w) ltac:(lia)) as Hm. rewrite Hd in Hm.
  destruct (round (z + w) 1) as [| |z'|] eqn:E.
  - destruct Hm.
  - destruct Hm.
  - right. exists z'. split; [reflexivity|]. split; [exact Hm|].
    exact (round_fixed _ _ E).
  - now left.
Qed.

Lemma extend_dist (a : number) (w : Z) :
  dist a -> 0 <= w -> dist (num_add a (Fin w)).
Proof.
  intros [->|(x & -> & Hx & Hd)] Hw; [now left|].
  destruct (extend_cases x w Hx Hd Hw) as [->|(z' & -> & Hle & Hd')]; [now left|].
  right. exists z'. split; [reflexivity|]. split; [lia | exact Hd'].
Qed.

Lemma extend_ge (a : number) (w : Z) :
  dist a -> 0 <= w -> num_le a (num_add a (Fin w)).
Proof.
  intros [->|(x & -> & Hx & Hd)] Hw; [exact I|].
  destruct (extend_cases x w Hx Hd Hw) as [->|(z' & -> & Hle & _)]; [exact I | exact Hle].
Qed.

Lemma extend_mono (a b : number) (w : Z) :
  dist a -> dist b -> num_le a b ->
  num_le (num_add a (Fin w)) (num_add b (Fin w)).
Proof.
  intros [->|(x & -> & Hx & Hdx)] [->|(y & -> & Hy & Hdy)] Hle.
  - exact I.
  - destruct Hle.
  - cbn [num_add]. pose proof (round_not_NaN (x + w)) as Hn.
    destruct (round (x + w) 1); try exact I. congruence.
  - cbn [num_add]. apply round_mono. simpl in Hle. lia.
Qed.

Lemma extend_mono_weight (x w w' : Z) :
  w <= w' -> num_le (num_add (Fin x) (Fin w)) (num_add (Fin x) (Fin w')).
Proof.
  intros Hle. cbn [num_add]. apply round_mono. lia.
Qed.

End Rounding.

(** * The store *)

(** ** Strings *)

Lemma truthy_true (s : string) : truthy s = true <-> s <> ""%string.
Proof.
  unfold truthy. rewrite negb_true_iff. apply String.eqb_neq.
Qed.

Lemma truthy_false (s : string) : truthy s = false <-> s = ""%string.
Proof.
  unfold truthy. rewrite negb_false_iff. apply String.eqb_eq.
Qed.

(** ** The handlers *)

Lemma DataSet_get_In (ds : list Node.t) (i : string) :
  is_Some (DataSet_get ds i) <-> In i (map Node.id ds).
Proof.
  unfold DataSet_get. induction ds as [|n ds IH]; simpl.
  - split; [intros [x Hx]; discriminate | intros []].
  - destruct (String.eqb_spec (Node.id n) i) as [E|E].
    + split; [now left | intros _; eexists; reflexivity].
    + rewrite IH. split; [now right | intros [H|H]; [contradiction | exact H]].
Qed.

Lemma addNode_fresh (st : state) :
  newNode st <> ""%string -> ~ In (newNode st) (ids st) ->
  nodes (addNode st) = nodes st ++ [Node.mk (newNode st) (newNode st)] /\
  edges (addNode st) = edges st.
Proof.
  intros Hne Hin. unfold addNode.
  apply truthy_true in Hne. rewrite Hne. simpl.
  rewrite bool_decide_eq_false_2; [simpl; split; reflexivity|].
  now rewrite DataSet_get_In.
Qed.

Lemma addNode_rejected (st : state) :
  newNode st = ""%string \/ In (newNode st) (ids st) -> addNode st = st.
Proof.
  intros H. unfold addNode. destruct H as [H|H].
  - apply truthy_false in H. now rewrite H.
  - rewrite bool_decide_eq_true_2; [|now apply DataSet_get_In].
    now rewrite andb_false_r.
Qed.

Lemma addNode_cases (st : state) :
  (newNode st <> ""%string /\ ~ In (newNode st) (ids st) /\
   ids (addNode st) = ids st ++ [newNode st] /\ edges (addNode st) = edges st) \/
  addNode st = st.
Proof.
  destruct (String.eqb_spec (newNode st) "") as [E|E].
  - right. apply addNode_rejected. now left.
  - destruct (in_dec String.string_dec (newNode st) (ids st)) as [Hin|Hin].
    + right. apply addNode_rejected. now right.
    + left. destruct (addNode_fresh st E Hin) as [Hn He].
      repeat split; try assumption.
      unfold ids. rewrite Hn, map_app. reflexivity.
Qed.

Lemma addNode_clears_input (st : state) :
  addNode st = st \/ newNode (addNode st) = ""%string.
Proof.
  unfold addNode.
  destruct (truthy (newNode st) &&
            negb (bool_decide (is_Some (DataSet_get (nodes st) (newNode st)))));
    [right; reflexivity | left; reflexivity].
Qed.

Lemma addNode_again (st : state) : addNode (addNode st) = addNode st.
Proof.
  destruct (addNode_clears_input st) as [E|E].
  - now rewrite !E.
  - apply addNode_rejected. now left.
Qed.

Lemma addNode_same_name (st : state) (x : string) :
  let once := addNode (setNewNode x st) in
  nodes (addNode (setNewNode x once)) = nodes once /\
  edges (addNode (setNewNode x once)) = edges once.
Proof.
  intros once.
  destruct (addNode_cases (setNewNode x st)) as [(_ & _ & Hids & _)|E].
  - rewrite (addNode_rejected (setNewNode x once)); [split; reflexivity|].
    right. simpl. change (ids (setNewNode x once)) with (ids once).
    unfold once. rewrite Hids. apply in_app_iff. right. now left.
  - unfold once. rewrite E.
    change (setNewNode x (setNewNode x st)) with (setNewNode x st).
    rewrite E. split; reflexivity.
Qed.

Lemma addEdge_cases (st : state) :
  let f := Form.from (newEdge st) in
  let t := Form.to (newEdge st) in
  let w := Form.weight (newEdge st) in
  (f <> ""%string /\ t <> ""%string /\ w <> Typed "" /\
   In f (ids st) /\ In t (ids st) /\
   nodes (addEdge st) = nodes st /\
   edges (addEdge st) =
     edges st ++ [Edge.mk f t (weight_toString w) (parseFloat w)]) \/
  ((f = ""%string \/ t = ""%string \/ w = Typed "" \/
    ~ In f (ids st) \/ ~ In t (ids st)) /\ addEdge st = st).
Proof.
  intros f t w. unfold addEdge. fold f t w.
  destruct (truthy f) eqn:Ef;
    [|right; split; [left; now apply truthy_false | reflexivity]].
  destruct (truthy t) eqn:Et;
    [|right; split; [right; left; now apply truthy_false | reflexivity]].
  destruct (weight_truthy w) eqn:Ew.
  2:{ right. split; [|reflexivity]. right. right. left.
      destruct w as [|x]; [discriminate|]. simpl in Ew.
      apply truthy_false in Ew. now subst. }
  destruct (bool_decide (is_Some (DataSet_get (nodes st) f))) eqn:Hf.
  2:{ right. split; [|reflexivity]. do 3 right. left.
      apply bool_decide_eq_false_1 in Hf. unfold ids. now rewrite <- DataSet_get_In. }
  destruct (bool_decide (is_Some (DataSet_get (nodes st) t))) eqn:Ht.
  2:{ right. split; [|reflexivity]. do 4 right.
      apply bool_decide_eq_false_1 in Ht. unfold ids. now rewrite <- DataSet_get_In. }
  left. simpl.
  apply bool_decide_eq_true_1, DataSet_get_In in Hf.
  apply bool_decide_eq_true_1, DataSet_get_In in Ht.
  apply truthy_true in Ef. apply truthy_true in Et.
  repeat split; try assumption.
  intros ->. simpl in Ew. discriminate.
Qed.

Lemma addNode_integral (st : state) : integral st -> integral (addNode st).
Proof.
  intros (Hnd & Hne & Hed).
  destruct (addNode_cases st) as [(Hx & Hin & Hids & Hedges)|E];
    [|rewrite E; exact (conj Hnd (conj Hne Hed))].
  split; [|split].
  - rewrite Hids. apply NoDup_app. repeat split.
    + exact Hnd.
    + intros i Hi Hi'. apply list_elem_of_In in Hi, Hi'.
      destruct Hi' as [<-|[]]. contradiction.
    + apply NoDup_singleton.
  - intros i. rewrite Hids, in_app_iff. intros [Hi|[<-|[]]]; auto.
  - intros e He. rewrite Hedges in He. rewrite Hids, !in_app_iff.
    destruct (Hed e He). split; now left.
Qed.

Lemma addEdge_integral (st : state) : integral st -> integral (addEdge st).
Proof.
  intros (Hnd & Hne & Hed).
  destruct (addEdge_cases st) as [(_ & _ & _ & Hf & Ht & Hn & He)|[_ E]];
    [|rewrite E; exact (conj Hnd (conj Hne Hed))].
  unfold integral, ids. rewrite Hn, He. fold (ids st).
  split; [exact Hnd|]. split; [exact Hne|].
  intros e Hin. apply in_app_iff in Hin.
  destruct Hin as [Hin|[<-|[]]]; [now apply Hed | split; assumption].
Qed.

Lemma apply_integral (st : state) (o : op) : integral st -> integral (apply st o).
Proof.
  intros H. destruct o as [x|f t w|]; simpl.
  - apply addNode_integral. exact H.
  - apply addEdge_integral. exact H.
  - split; [constructor|]. split; intros ? [].
Qed.

Lemma fold_apply_integral (ops : list op) (st : state) :
  integral st -> integral (fold_left apply ops st).
Proof.
  revert st. induction ops as [|o ops IH]; intros st H; simpl; [exact H|].
  apply IH, apply_integral, H.
Qed.

Lemma run_integral (ops : list op) : integral (run ops).
Proof.
  apply fold_apply_integral. split; [constructor|]. split; intros ? [].
Qed.

Lemma run_valid_snapshot (ops : list op) : valid_snapshot (snapshot (run ops)).
Proof.
  destruct (run_integral ops) as (_ & Hne & Hed). split; assumption.
Qed.

Lemma map_fixed {A : Type} (f : A -> A) (l : list A) :
  (forall x, In x l -> f x = x) -> map f l = l.
Proof.
  induction l as [|a l IH]; intros H; simpl; [reflexivity|].
  rewrite H by now left. rewrite IH; [reflexivity|].
  intros x Hx. apply H. now right.
Qed.

(** C9: [addNode(x)] twice in a row leaves the node set and the edge set
    that one call leaves; the same holds of two clicks on the add button. *)
Theorem addNode_idempotent (st : state) (x : string) :
  (nodes (apply (apply st (AddNode x)) (AddNode x)) = nodes (apply st (AddNode x)) /\
   edges (apply (apply st (AddNode x)) (AddNode x)) = edges (apply st (AddNode x))) /\
  (nodes (addNode (addNode st)) = nodes (addNode st) /\
   edges (addNode (addNode st)) = edges (addNode st)).
Proof.
  split.
  - apply addNode_same_name.
  - rewrite addNode_again. split; reflexivity.
Qed.

(** C2, as stated, fails: a negative weight is not rejected.  With nodes
    [A] and [B] in the store, [addEdge(A, B, -5)] inserts an edge of
    weight -5. *)
Lemma addEdge_accepts_negative_weight :
  ~ valid_weight (Typed "-5") /\
  edges (run [AddNode "A"; AddNode "B"]) = [] /\
  edges (apply (run [AddNode "A"; AddNode "B"]) (AddEdge "A" "B" (Typed "-5")))
  = [Edge.mk "A" "B" "-5" (Fin (-5 * one))].
Proof.
  split; [|split; reflexivity].
  intros (q & Hq & Hpos). vm_compute in Hq. injection Hq as <-. lia.
Qed.

(** C2, amended: [addEdge(from, to, weight)] changes neither collection
    when [from] or [to] is empty, when the weight field is the empty
    text, or when an endpoint is not a node; on every other input (any
    non-empty weight text, be it 0, negative or not numeric) it appends
    the edge whose weight is [parseFloat] of the field. *)
Theorem addEdge_spec (st : state) (f t : string) (w : weight_input) :
  (f = ""%string \/ t = ""%string \/ w = Typed "" \/
   ~ In f (ids st) \/ ~ In t (ids st) ->
   nodes (apply st (AddEdge f t w)) = nodes st /\
   edges (apply st (AddEdge f t w)) = edges st) /\
  (f <> ""%string -> t <> ""%string -> w <> Typed "" ->
   In f (ids st) -> In t (ids st) ->
   nodes (apply st (AddEdge f t w)) = nodes st /\
   edges (apply st (AddEdge f t w)) =
     edges st ++ [Edge.mk f t (weight_toString w) (parseFloat w)]).
Proof.
  simpl.
  destruct (addEdge_cases (setNewEdge (Form.mk f t w) st))
    as [(Hf & Ht & Hw & Hif & Hit & Hn & He)|[Hbad E]]; simpl in *.
  - split.
    + intros [H|[H|[H|[H|H]]]]; contradiction.
    + intros _ _ _ _ _. split; assumption.
  - split.
    + intros _. rewrite E. split; reflexivity.
    + intros Hf Ht Hw Hif Hit.
      destruct Hbad as [H|[H|[H|[H|H]]]]; contradiction.
Qed.

Lemma addEdge_spec_witness :
  edges (apply (run [AddNode "A"; AddNode "B"]) (AddEdge "A" "B" (Typed "0")))
  = [Edge.mk "A" "B" "0" (Fin 0)] /\
  edges (apply (run [AddNode "A"]) (AddEdge "A" "B" (Typed "3"))) = [].
Proof.
  split.
  - apply (proj2 (addEdge_spec (run [AddNode "A"; AddNode "B"]) "A" "B" (Typed "0")));
      try discriminate; vm_compute; tauto.
  - apply (proj1 (addEdge_spec (run [AddNode "A"]) "A" "B" (Typed "3"))).
    do 4 right. vm_compute. intros [H|[]]. discriminate.
Defined.

(** C8: [addEdge] changes nothing when an endpoint is not a node, and in
    every state reached by [addNode], [addEdge] and [clear] operations
    both endpoints of every stored edge are nodes. *)
Theorem referential_integrity :
  (forall st f t w, ~ In f (ids st) \/ ~ In t (ids st) ->
     nodes (apply st (AddEdge f t w)) = nodes st /\
     edges (apply st (AddEdge f t w)) = edges st) /\
  (forall ops e, In e (edges (run ops)) ->
     In (Edge.from e) (ids (run ops)) /\ In (Edge.to e) (ids (run ops))).
Proof.
  split.
  - intros st f t w H. simpl.
    destruct (addEdge_cases (setNewEdge (Form.mk f t w) st))
      as [(_ & _ & _ & Hif & Hit & _)|[_ E]]; simpl in *.
    + destruct H; contradiction.
    + rewrite E. split; reflexivity.
  - intros ops e He. destruct (run_integral ops) as (_ & _ & Hed).
    now apply Hed.
Qed.

Lemma referential_integrity_witness :
  In "A"%string (ids (run [AddNode "A"; AddNode "B"; AddEdge "A" "B" One])) /\
  In "B"%string (ids (run [AddNode "A"; AddNode "B"; AddEdge "A" "B" One])).
Proof.
  apply (proj2 referential_integrity
           [AddNode "A"; AddNode "B"; AddEdge "A" "B" One]
           (Edge.mk "A" "B" "1" (Fin one))).
  vm_compute. now left.
Defined.

(** ** More on the store *)

Lemma run_invariant (P : state -> Prop) :
  P initial -> (forall st o, P st -> P (apply st o)) ->
  forall ops, P (run ops).
Proof.
  intros H0 Hstep ops. unfold run.
  assert (Hgen : forall st, P st -> P (fold_left apply ops st)).
  { induction ops as [|o ops IH]; intros st H; cbn [fold_left]; [exact H|].
    apply IH, Hstep, H. }
  apply Hgen, H0.
Qed.

Lemma addEdge_clears_input (st : state) :
  addEdge st = st \/ newEdge (addEdge st) = Form.blank.
Proof.
  unfold addEdge.
  destruct (truthy (Form.from (newEdge st)) && truthy (Form.to (newEdge st)) &&
            weight_truthy (Form.weight (newEdge st)) &&
            bool_decide (is_Some (DataSet_get (nodes st) (Form.from (newEdge st)))) &&
            bool_decide (is_Some (DataSet_get (nodes st) (Form.to (newEdge st)))));
    [right; reflexivity | left; reflexivity].
Qed.

Lemma addEdge_rejected (st : state) :
  Form.from (newEdge st) = ""%string -> addEdge st = st.
Proof.
  intros H. unfold addEdge. rewrite H. reflexivity.
Qed.

Lemma apply_AddEdge_accepted (st : state) (f t : string) (w : weight_input) :
  f <> ""%string -> t <> ""%string -> w <> Typed "" ->
  In f (ids st) -> In t (ids st) ->
  nodes (apply st (AddEdge f t w)) = nodes st /\
  edges (apply st (AddEdge f t w)) =
    edges st ++ [Edge.mk f t (weight_toString w) (parseFloat w)].
Proof.
  intros Hf Ht Hw Hif Hit. cbn [apply].
  destruct (addEdge_cases (setNewEdge (Form.mk f t w) st))
    as [(_ & _ & _ & _ & _ & Hn & He)|[Hbad _]]; simpl in *.
  - split; assumption.
  - destruct Hbad as [H|[H|[H|[H|H]]]]; contradiction.
Qed.

(** A second click on the add-edge button changes nothing: a successful
    add blanks the form, and a rejected one leaves the state as it was. *)
Theorem addEdge_again (st : state) : addEdge (addEdge st) = addEdge st.
Proof.
  destruct (addEdge_clears_input st) as [E|E].
  - now rewrite !E.
  - apply addEdge_rejected. now rewrite E.
Qed.

(** The store keeps parallel edges: the same accepted [addEdge] call made
    twice appends the edge twice. *)
Theorem addEdge_twice_duplicates (st : state) (f t : string) (w : weight_input) :
  f <> ""%string -> t <> ""%string -> w <> Typed "" ->
  In f (ids st) -> In t (ids st) ->
  edges (apply (apply st (AddEdge f t w)) (AddEdge f t w)) =
  edges st ++ [Edge.mk f t (weight_toString w) (parseFloat w);
               Edge.mk f t (weight_toString w) (parseFloat w)].
Proof.
  intros Hf Ht Hw Hif Hit.
  destruct (apply_AddEdge_accepted st f t w Hf Ht Hw Hif Hit) as [Hn He].
  destruct (apply_AddEdge_accepted (apply st (AddEdge f t w)) f t w Hf Ht Hw)
    as [_ He2].
  - unfold ids. rewrite Hn. exact Hif.
  - unfold ids. rewrite Hn. exact Hit.
  - rewrite He2, He, <- app_assoc. reflexivity.
Qed.

Lemma addEdge_twice_duplicates_witness :
  edges (apply (apply (run [AddNode "A"; AddNode "B"]) (AddEdge "A" "B" One))
           (AddEdge "A" "B" One)) =
  [Edge.mk "A" "B" "1" (Fin one); Edge.mk "A" "B" "1" (Fin one)].
Proof.
  apply (addEdge_twice_duplicates (run [AddNode "A"; AddNode "B"]) "A" "B" One);
    try discriminate; vm_compute; tauto.
Defined.

(** Right after an edge has been added the form is blank, so a click on
    the find-path button does nothing, whatever the graph. *)
Theorem findShortestPath_after_addEdge (fuel : nat) (st : state) :
  edges (addEdge st) <> edges st ->
  findShortestPath fuel (addEdge st) = Some (addEdge st).
Proof.
  intros Hne. destruct (addEdge_clears_input st) as [E|E].
  - rewrite E in Hne. contradiction.
  - unfold findShortestPath. rewrite E. reflexivity.
Qed.

Lemma findShortestPath_after_addEdge_witness :
  findShortestPath 0
    (addEdge (setNewEdge (Form.mk "A" "B" One) (run [AddNode "A"; AddNode "B"]))) =
  Some (addEdge (setNewEdge (Form.mk "A" "B" One) (run [AddNode "A"; AddNode "B"]))).
Proof.
  apply (findShortestPath_after_addEdge 0
           (setNewEdge (Form.mk "A" "B" One) (run [AddNode "A"; AddNode "B"]))).
  vm_compute. discriminate.
Defined.

Lemma apply_graph_only (st1 st2 : state) (o : op) :
  nodes st1 = nodes st2 -> edges st1 = edges st2 ->
  nodes (apply st1 o) = nodes (apply st2 o) /\
  edges (apply st1 o) = edges (apply st2 o).
Proof.
  intros Hn He. destruct o as [x|f t w|]; cbn [apply].
  - unfold addNode, setNewNode; cbn [nodes edges newNode]. rewrite Hn, He.
    destruct (truthy x && _); split; reflexivity || assumption.
  - unfold addEdge, setNewEdge; cbn [nodes edges newEdge Form.from Form.to Form.weight].
    rewrite Hn, He.
    destruct (truthy f && truthy t && weight_truthy w && _ && _);
      split; reflexivity || assumption.
  - split; reflexivity.
Qed.

Lemma fold_apply_graph_only (ops : list op) (st1 st2 : state) :
  nodes st1 = nodes st2 -> edges st1 = edges st2 ->
  nodes (fold_left apply ops st1) = nodes (fold_left apply ops st2) /\
  edges (fold_left apply ops st1) = edges (fold_left apply ops st2).
Proof.
  revert st1 st2. induction ops as [|o ops IH]; intros st1 st2 Hn He;
    cbn [fold_left]; [split; assumption|].
  destruct (apply_graph_only st1 st2 o Hn He) as [Hn' He'].
  now apply IH.
Qed.

(** [clear()] forgets everything: the graph after any operations, a
    clear, and further operations is the graph that the further
    operations alone build. *)
Theorem clear_resets (before after : list op) :
  nodes (run (before ++ Clear :: after)) = nodes (run after) /\
  edges (run (before ++ Clear :: after)) = edges (run after).
Proof.
  unfold run. rewrite fold_left_app. cbn [fold_left].
  apply fold_apply_graph_only; reflexivity.
Qed.

(** Every operation but [clear()] keeps the stored nodes and edges in
    place and appends at most one item. *)
Theorem apply_appends (st : state) (o : op) :
  o <> Clear ->
  exists ns es,
    nodes (apply st o) = nodes st ++ ns /\
    edges (apply st o) = edges st ++ es /\
    length ns + length es <= 1.
Proof.
  intros Ho. destruct o as [x|f t w|]; [| |contradiction]; cbn [apply].
  - destruct (String.eqb_spec x "") as [E|E];
      [|destruct (in_dec String.string_dec x (ids st)) as [Hin|Hin]].
    + rewrite (addNode_rejected (setNewNode x st)) by now left.
      exists [], []. rewrite !app_nil_r. repeat split. simpl. lia.
    + rewrite (addNode_rejected (setNewNode x st)) by now right.
      exists [], []. rewrite !app_nil_r. repeat split. simpl. lia.
    + destruct (addNode_fresh (setNewNode x st) E Hin) as [Hn He].
      exists [Node.mk x x], []. rewrite Hn, He, app_nil_r. repeat split.
      simpl. lia.
  - destruct (addEdge_cases (setNewEdge (Form.mk f t w) st))
      as [(_ & _ & _ & _ & _ & Hn & He)|[_ E]]; simpl in *.
    + eexists [], [_]. rewrite Hn, He, app_nil_r. repeat split.
      simpl. lia.
    + rewrite E. exists [], []. rewrite !app_nil_r. repeat split. simpl. lia.
Qed.

Lemma apply_appends_witness :
  exists ns es,
    nodes (apply (run [AddNode "A"]) (AddNode "B")) = nodes (run [AddNode "A"]) ++ ns /\
    edges (apply (run [AddNode "A"]) (AddNode "B")) = edges (run [AddNode "A"]) ++ es /\
    length ns + length es <= 1.
Proof.
  apply (apply_appends (run [AddNode "A"]) (AddNode "B")). discriminate.
Defined.

Lemma addNode_edges (st : state) : edges (addNode st) = edges st.
Proof.
  destruct (addNode_cases st) as [(_ & _ & _ & H)|E]; [exact H | now rewrite E].
Qed.

Lemma addEdge_nodes (st : state) : nodes (addEdge st) = nodes st.
Proof.
  destruct (addEdge_cases st) as [(_ & _ & _ & _ & _ & H & _)|[_ E]];
    [exact H | now rewrite E].
Qed.

Lemma apply_edges (st : state) (o : op) (e : Edge.t) :
  In e (edges (apply st o)) ->
  In e (edges st) \/
  exists f t w, o = AddEdge f t w /\ f <> ""%string /\ t <> ""%string /\
                w <> Typed "" /\
                e = Edge.mk f t (weight_toString w) (parseFloat w).
Proof.
  destruct o as [x|f t w|]; cbn [apply].
  - rewrite addNode_edges. intros H. now left.
  - destruct (addEdge_cases (setNewEdge (Form.mk f t w) st))
      as [(Hf & Ht & Hw & _ & _ & _ & He)|[_ E]]; simpl in *.
    + rewrite He, in_app_iff. intros [H|[<-|[]]]; [now left|].
      right. exists f, t, w. repeat split; assumption.
    + rewrite E. intros H. now left.
  - intros [].
Qed.

Lemma stored_edge_facts (ops : list op) (e : Edge.t) :
  In e (edges (run ops)) ->
  Edge.weight e = parseFloat_string (Edge.label e) /\
  Edge.label e <> ""%string /\
  Edge.from e <> ""%string /\ Edge.to e <> ""%string.
Proof.
  revert e. apply (run_invariant (fun st => forall e, In e (edges st) ->
    Edge.weight e = parseFloat_string (Edge.label e) /\
    Edge.label e <> ""%string /\
    Edge.from e <> ""%string /\ Edge.to e <> ""%string)).
  - intros e [].
  - intros st o IH e He.
    destruct (apply_edges st o e He) as [H|(f & t & w & _ & Hf & Ht & Hw & ->)];
      [now apply IH|].
    cbn [Edge.weight Edge.label Edge.from Edge.to]. repeat split; try assumption.
    destruct w as [|x]; [discriminate|]. cbn [weight_toString].
    intros ->. now apply Hw.
Qed.

(** In every state the store reaches, the weight of a stored edge is what
    [parseFloat] reads from the edge's label, and neither the label nor an
    endpoint is empty. *)
Theorem stored_edge_consistent (ops : list op) (e : Edge.t) :
  In e (edges (run ops)) ->
  Edge.weight e = parseFloat_string (Edge.label e) /\
  Edge.label e <> ""%string /\
  Edge.from e <> ""%string /\ Edge.to e <> ""%string.
Proof.
  exact (stored_edge_facts ops e).
Qed.

Lemma stored_edge_consistent_witness :
  Edge.weight (Edge.mk "A" "B" "2.5" (Fin (5 * 2 ^ 1073))) = parseFloat_string "2.5" /\
  "2.5"%string <> ""%string /\ "A"%string <> ""%string /\ "B"%string <> ""%string.
Proof.
  apply (stored_edge_consistent
           [AddNode "A"; AddNode "B"; AddEdge "A" "B" (Typed "2.5")]
           (Edge.mk "A" "B" "2.5" (Fin (5 * 2 ^ 1073)))).
  vm_compute. now left.
Defined.

Lemma fold_apply_nonneg (ops : list op) (st : state) :
  nonneg_weights (snapshot st) -> valid_weights ops ->
  nonneg_weights (snapshot (fold_left apply ops st)).
Proof.
  revert st. induction ops as [|o ops IH]; intros st Hst Hops; cbn [fold_left];
    [exact Hst|].
  apply IH.
  - intros e He. cbn [snapshot Graph.edges] in He.
    destruct (apply_edges st o e He) as [H|(f & t & w & -> & _ & _ & _ & ->)].
    + now apply Hst.
    + exact (Hops f t w (or_introl eq_refl)).
  - intros f t w H. apply (Hops f t w). now right.
Qed.

Lemma valid_weights_safe (ops : list op) :
  valid_weights ops -> nonneg_weights (snapshot (run ops)).
Proof.
  intros H. apply fold_apply_nonneg; [|exact H]. intros e [].
Qed.

(** When every weight handed to [addEdge] is a valid non-negative number,
    every edge of the graph the store holds has a finite non-negative
    weight. *)
Theorem valid_weights_nonneg (ops : list op) :
  valid_weights ops -> nonneg_weights (snapshot (run ops)).
Proof.
  exact (valid_weights_safe ops).
Qed.

Lemma valid_weights_nonneg_witness :
  nonneg_weights (snapshot (run [AddNode "A"; AddNode "B"; AddEdge "A" "B" (Typed "0.5")])).
Proof.
  apply (valid_weights_nonneg [AddNode "A"; AddNode "B"; AddEdge "A" "B" (Typed "0.5")]).
  intros f t w [H|[H|[H|[]]]]; try discriminate.
  injection H as _ _ <-. eexists. split; [vm_compute; reflexivity | lia].
Defined.

Lemma DataSet_get_labelled (ds : list Node.t) (x : string) :
  (forall n, In n ds -> Node.label n = Node.id n) ->
  In x (map Node.id ds) -> DataSet_get ds x = Some (Node.mk x x).
Proof.
  unfold DataSet_get. induction ds as [|n ds IH]; intros Hlab Hin; [destruct Hin|].
  cbn [find]. destruct (String.eqb_spec (Node.id n) x) as [E|E].
  - pose proof (Hlab n (or_introl eq_refl)) as Hl.
    destruct n as [i l]. cbn in *. now subst.
  - apply IH.
    + intros m Hm. apply Hlab. now right.
    + destruct Hin as [H|H]; [contradiction | exact H].
Qed.

Lemma run_labelled (ops : list op) (n : Node.t) :
  In n (nodes (run ops)) -> Node.label n = Node.id n.
Proof.
  revert n. apply (run_invariant (fun st => forall n, In n (nodes st) ->
                                   Node.label n = Node.id n)).
  - intros n [].
  - intros st o IH n Hn. destruct o as [x|f t w|]; cbn [apply] in Hn.
    + destruct (String.eqb_spec x "") as [E|E];
        [|destruct (in_dec String.string_dec x (ids st)) as [Hin|Hin]].
      * rewrite (addNode_rejected (setNewNode x st)) in Hn by now left.
        now apply IH.
      * rewrite (addNode_rejected (setNewNode x st)) in Hn by now right.
        now apply IH.
      * destruct (addNode_fresh (setNewNode x st) E Hin) as [Hnodes _].
        rewrite Hnodes in Hn. apply in_app_iff in Hn.
        destruct Hn as [Hn|[<-|[]]]; [now apply IH | reflexivity].
    + rewrite addEdge_nodes in Hn. now apply IH.
    + destruct Hn.
Qed.

(** Insert then look up: after [addNode(x)] with a non-empty [x],
    [nodes.get(x)] returns the node whose id and label are [x], and
    [nodes.get] of an id that is not stored returns null. *)
Theorem addNode_then_get (ops : list op) (x y : string) :
  x <> ""%string ->
  DataSet_get (nodes (apply (run ops) (AddNode x))) x = Some (Node.mk x x) /\
  (~ In y (ids (run ops)) -> DataSet_get (nodes (run ops)) y = None).
Proof.
  intros Hx. split.
  - assert (E : apply (run ops) (AddNode x) = run (ops ++ [AddNode x])).
    { unfold run. now rewrite fold_left_app. }
    rewrite E. apply DataSet_get_labelled.
    + intros n. apply run_labelled.
    + rewrite <- E. cbn [apply].
      destruct (in_dec String.string_dec x (ids (run ops))) as [Hin|Hin].
      * rewrite (addNode_rejected (setNewNode x (run ops))) by now right.
        exact Hin.
      * destruct (addNode_fresh (setNewNode x (run ops)) Hx Hin) as [Hnodes _].
        rewrite Hnodes, map_app. apply in_app_iff. right. now left.
  - intros Hy. destruct (DataSet_get (nodes (run ops)) y) as [n|] eqn:E;
      [|reflexivity].
    exfalso. apply Hy. apply DataSet_get_In. now exists n.
Qed.

Lemma addNode_then_get_witness :
  DataSet_get (nodes (apply (run [AddNode "A"]) (AddNode "B"))) "B" =
    Some (Node.mk "B" "B") /\
  (~ In "C"%string (ids (run [AddNode "A"])) ->
   DataSet_get (nodes (run [AddNode "A"])) "C" = None).
Proof.
  apply (addNode_then_get [AddNode "A"] "B" "C"). discriminate.
Defined.

(** ** The inputs *)

Lemma upper_ascii_not_lower (c : ascii) : is_lower (upper_ascii c) = false.
Proof.
  destruct c as [[] [] [] [] [] [] [] []]; reflexivity.
Qed.

Lemma toUpperCase_no_lower (v : string) : has_lower (toUpperCase v) = false.
Proof.
  induction v as [|c r IH]; [reflexivity|]. cbn [toUpperCase has_lower].
  now rewrite upper_ascii_not_lower, IH.
Qed.

Lemma addEdge_newNode (st : state) : newNode (addEdge st) = newNode st.
Proof.
  unfold addEdge.
  now destruct (truthy _ && truthy _ && weight_truthy _ && _ && _).
Qed.

Lemma handle_tidy (st : state) (ev : event) : tidy st -> tidy (handle st ev).
Proof.
  intros (Hint & Hids & Hnew). destruct ev as [v|v|v|v| | |]; cbn [handle].
  - split; [exact Hint|]. split; [exact Hids|]. apply toUpperCase_no_lower.
  - split; [exact Hint|]. split; assumption.
  - split; [exact Hint|]. split; assumption.
  - split; [exact Hint|]. split; assumption.
  - split; [now apply addNode_integral|]. split.
    + destruct (addNode_cases st) as [(_ & _ & E & _)|E].
      * intros i. rewrite E, in_app_iff. intros [H|[<-|[]]]; auto.
      * now rewrite E.
    + destruct (addNode_clears_input st) as [E|E]; now rewrite E.
  - split; [now apply addEdge_integral|]. split.
    + unfold ids. rewrite addEdge_nodes. exact Hids.
    + now rewrite addEdge_newNode.
  - split; [|split; [intros ? [] | exact Hnew]].
    split; [constructor|]. split; intros ? [].
Qed.

Lemma session_tidy (evs : list event) : tidy (session evs).
Proof.
  unfold session.
  assert (Hgen : forall st, tidy st -> tidy (fold_left handle evs st)).
  { induction evs as [|ev evs IH]; intros st H; cbn [fold_left]; [exact H|].
    apply IH, handle_tidy, H. }
  apply Hgen. split; [|split; [intros ? [] | reflexivity]].
  split; [constructor|]. split; intros ? [].
Qed.

(** Whatever the user types and clicks, the ids in the store are distinct,
    non-empty and free of lower-case ASCII letters, and every stored edge
    joins two stored nodes. *)
Theorem session_ids_upper (evs : list event) :
  NoDup (ids (session evs)) /\
  (forall i, In i (ids (session evs)) -> i <> ""%string /\ has_lower i = false) /\
  (forall e, In e (edges (session evs)) ->
     In (Edge.from e) (ids (session evs)) /\ In (Edge.to e) (ids (session evs))).
Proof.
  destruct (session_tidy evs) as ((Hnd & Hne & Hed) & Hlow & _).
  split; [exact Hnd|]. split; [|exact Hed].
  intros i Hi. split; [now apply Hne | now apply Hlow].
Qed.

Lemma session_ids_upper_witness :
  "AB"%string <> ""%string /\ has_lower "AB" = false.
Proof.
  apply (proj1 (proj2 (session_ids_upper [ChangeNode "ab"; ClickAddNode])) "AB"%string).
  vm_compute. now left.
Defined.

Lemma upper_ascii_fixed (c : ascii) : is_lower c = false -> upper_ascii c = c.
Proof.
  destruct c as [[] [] [] [] [] [] [] []]; intros H; (reflexivity || discriminate H).
Qed.

Lemma toUpperCase_fixed (s : string) : has_lower s = false -> toUpperCase s = s.
Proof.
  induction s as [|c r IH]; [reflexivity|]. cbn [toUpperCase has_lower].
  intros H. apply orb_false_iff in H. destruct H as [Hc Hr].
  now rewrite (upper_ascii_fixed c Hc), (IH Hr).
Qed.

Lemma inherited_has_lower (k : string) : inherited k = true -> has_lower k = true.
Proof.
  unfold inherited. intros H. apply existsb_exists in H.
  destruct H as (x & Hin & Heq). apply String.eqb_eq in Heq. subst x.
  repeat (destruct Hin as [<-|Hin]; [reflexivity|]). destruct Hin.
Qed.

Lemma upper_not_inherited (k : string) : has_lower k = false -> inherited k = false.
Proof.
  intros H. destruct (inherited k) eqn:E; [|reflexivity].
  apply inherited_has_lower in E. congruence.
Qed.

Lemma addNode_newEdge (st : state) : newEdge (addNode st) = newEdge st.
Proof.
  unfold addNode. now destruct (truthy _ && negb _).
Qed.

Lemma handle_upper_form (st : state) (ev : event) :
  upper_form st -> upper_form (handle st ev).
Proof.
  intros [Hf Ht]. destruct ev as [v|v|v|v| | |]; cbn [handle].
  - split; assumption.
  - split; [apply toUpperCase_no_lower | exact Ht].
  - split; [exact Hf | apply toUpperCase_no_lower].
  - split; assumption.
  - unfold upper_form. rewrite addNode_newEdge. split; assumption.
  - unfold upper_form. destruct (addEdge_clears_input st) as [E|E]; rewrite E;
      split; assumption || reflexivity.
  - split; assumption.
Qed.

Lemma session_upper_form (evs : list event) : upper_form (session evs).
Proof.
  unfold session.
  assert (Hgen : forall st, upper_form st -> upper_form (fold_left handle evs st)).
  { induction evs as [|ev evs IH]; intros st H; cbn [fold_left]; [exact H|].
    apply IH, handle_upper_form, H. }
  apply Hgen. split; reflexivity.
Qed.

Lemma session_valid_snapshot (evs : list event) :
  valid_snapshot (snapshot (session evs)).
Proof.
  destruct (session_tidy evs) as ((_ & Hne & Hed) & _). split; assumption.
Qed.

(** C3: whatever is typed and clicked, no two nodes of the store have ids
    that are equal after upper-casing.  The change handler of the node
    input upper-cases what is typed before [addNode] stores it, so that
    every stored id is its own upper-casing. *)
Theorem session_ids_normalised (evs : list event) :
  NoDup (map toUpperCase (ids (session evs))) /\
  (forall i, In i (ids (session evs)) -> toUpperCase i = i).
Proof.
  destruct (session_tidy evs) as ((Hnd & _ & _) & Hlow & _).
  assert (Hfix : forall i, In i (ids (session evs)) -> toUpperCase i = i).
  { intros i Hi. apply toUpperCase_fixed, Hlow, Hi. }
  split; [|exact Hfix].
  rewrite map_fixed; assumption.
Qed.

(** ** [parseFloat] *)

Section Parsing.

Local Open Scope Z_scope.

Lemma round_ratio_nonneg (n d : Z) :
  0 <= n -> 0 < d ->
  round_ratio n d <> NegInf /\ forall q, round_ratio n d = Fin q -> 0 <= q.
Proof.
  intros Hn Hd. unfold round_ratio.
  pose proof (spacing_nonneg (n / d)) as Hs.
  assert (Hp : 0 < 2 ^ spacing (n / d)) by (apply Z.pow_pos_nonneg; lia).
  assert (HD : 0 < d * 2 ^ spacing (n / d)) by now apply Z.mul_pos_pos.
  pose proof (nearest_lower 0 n _ HD ltac:(lia)) as H0.
  destruct (limit <=? _); split; try discriminate.
  intros q H. injection H as <-. apply Z.mul_nonneg_nonneg; lia.
Qed.

Lemma decimal_nonneg (m : N) (e : Z) :
  decimal m e <> NegInf /\ forall q, decimal m e = Fin q -> 0 <= q.
Proof.
  unfold decimal. assert (Hone : 0 < one) by reflexivity.
  pose proof (N2Z.is_nonneg m) as Hm.
  destruct (Z.leb_spec 0 e) as [He|He]; apply round_ratio_nonneg.
  - apply Z.mul_nonneg_nonneg; [|lia].
    apply Z.mul_nonneg_nonneg; [lia|]. apply Z.pow_nonneg. lia.
  - lia.
  - apply Z.mul_nonneg_nonneg; lia.
  - apply Z.pow_pos_nonneg; lia.
Qed.

Lemma parse_unsigned_nonneg (s : string) (q : Z) :
  parse_unsigned s <> NegInf /\ (parse_unsigned s = Fin q -> 0 <= q).
Proof.
  unfold parse_unsigned.
  destruct (String.prefix "Infinity" s); [split; discriminate|].
  destruct (digits s 0 0) as [[ip n1] r1].
  assert (Hint : forall r,
            match n1 with O => NaN | S _ => decimal ip (exponent r) end <> NegInf /\
            (match n1 with O => NaN | S _ => decimal ip (exponent r) end = Fin q ->
             0 <= q)).
  { intros r. destruct n1; [split; discriminate|].
    destruct (decimal_nonneg ip (exponent r)) as [H1 H2]. split; [exact H1 | apply H2]. }
  assert (Hfrac : forall r2,
            (let '(m, n2, r3) := digits r2 ip 0 in
             match n1, n2 with
             | O, O => NaN
             | _, _ => decimal m (exponent r3 - Z.of_nat n2)
             end) <> NegInf /\
            ((let '(m, n2, r3) := digits r2 ip 0 in
              match n1, n2 with
              | O, O => NaN
              | _, _ => decimal m (exponent r3 - Z.of_nat n2)
              end) = Fin q -> 0 <= q)).
  { intros r2. destruct (digits r2 ip 0) as [[m n2] r3].
    destruct (decimal_nonneg m (exponent r3 - Z.of_nat n2)) as [H1 H2].
    destruct n1, n2; split; try discriminate; try exact H1; apply H2. }
  destruct r1 as [|c r2]; [apply Hint|].
  destruct c as [[] [] [] [] [] [] [] []];
    first [apply (Hint (String _ r2)) | apply Hfrac].
Qed.

Lemma parseFloat_string_negative (s : string) :
  parseFloat_string s = NegInf \/
  (exists q, parseFloat_string s = Fin q /\ q < 0) ->
  exists r, skip_space s = String "-" r.
Proof.
  intros H. unfold parseFloat_string in H.
  assert (Hno : forall x,
            ~ (parse_unsigned x = NegInf \/
               (exists q, parse_unsigned x = Fin q /\ q < 0))).
  { intros x [Hx|(q & Hx & Hq)].
    - now destruct (parse_unsigned_nonneg x 0).
    - destruct (parse_unsigned_nonneg x q) as [_ Hp]. specialize (Hp Hx). lia. }
  destruct (skip_space s) as [|c r]; [destruct (Hno _ H)|].
  destruct c as [[] [] [] [] [] [] [] []];
    first [now exists r | destruct (Hno _ H)].
Qed.

End Parsing.

(** A stored edge has a negative weight (or [-Infinity]) only when the
    text typed as its weight, kept as the edge's label, has a minus sign
    as its first character after the leading white space. *)
Theorem stored_negative_needs_minus (ops : list op) (e : Edge.t) :
  In e (edges (run ops)) ->
  Edge.weight e = NegInf \/ (exists q, Edge.weight e = Fin q /\ (q < 0)%Z) ->
  exists r, skip_space (Edge.label e) = String "-" r.
Proof.
  intros He Hneg. destruct (stored_edge_facts ops e He) as [Hw _].
  rewrite Hw in Hneg. now apply parseFloat_string_negative.
Qed.

Lemma stored_negative_needs_minus_witness :
  exists r, skip_space " -5" = String "-" r.
Proof.
  apply (stored_negative_needs_minus
           [AddNode "A"; AddNode "B"; AddEdge "A" "B" (Typed " -5")]
           (Edge.mk "A" "B" " -5" (Fin (-5 * one)))).
  - vm_compute. now left.
  - right. exists (-5 * one)%Z. split; [reflexivity | reflexivity].
Defined.

(** * Shortest paths *)

(** ** Reading an object *)

Lemma get_own {A : Type} (o : gmap string A) (k : string) (a : A) :
  o !! k = Some a -> get o k = Own a.
Proof. intros H. unfold get. now rewrite H. Qed.

Lemma get_missing {A : Type} (o : gmap string A) (k : string) :
  o !! k = None -> inherited k = false -> get o k = Undefined.
Proof. intros H Hi. unfold get. now rewrite H, Hi. Qed.

(** ** Initialisation *)

Lemma fold_init_pq (ns : list Node.t) (v : vars) :
  pq (fold_left init_node ns v) = pq v.
Proof.
  revert v. induction ns as [|n ns IH]; intros v; simpl; [reflexivity|].
  now rewrite IH.
Qed.

Lemma fold_init_distances (ns : list Node.t) (v : vars) (k : string) :
  distances (fold_left init_node ns v) !! k =
  if bool_decide (In k (map Node.id ns)) then Some PosInf else distances v !! k.
Proof.
  revert v. induction ns as [|n ns IH]; intros v; cbn [fold_left map].
  - rewrite bool_decide_eq_false_2; [reflexivity | intros []].
  - rewrite IH. destruct (decide (In k (map Node.id ns))) as [H|H].
    + rewrite !bool_decide_eq_true_2; [reflexivity | now right | exact H].
    + rewrite (bool_decide_eq_false_2 _ H). cbn [init_node distances].
      destruct (decide (Node.id n = k)) as [E|E].
      * rewrite bool_decide_eq_true_2 by now left.
        rewrite E. apply lookup_insert_eq.
      * rewrite bool_decide_eq_false_2 by (intros [?|?]; contradiction).
        now apply lookup_insert_ne.
Qed.

Lemma fold_init_previous (ns : list Node.t) (v : vars) (k : string) :
  previous (fold_left init_node ns v) !! k =
  if bool_decide (In k (map Node.id ns)) then Some None else previous v !! k.
Proof.
  revert v. induction ns as [|n ns IH]; intros v; cbn [fold_left map].
  - rewrite bool_decide_eq_false_2; [reflexivity | intros []].
  - rewrite IH. destruct (decide (In k (map Node.id ns))) as [H|H].
    + rewrite !bool_decide_eq_true_2; [reflexivity | now right | exact H].
    + rewrite (bool_decide_eq_false_2 _ H). cbn [init_node previous].
      destruct (decide (Node.id n = k)) as [E|E].
      * rewrite bool_decide_eq_true_2 by now left.
        rewrite E. apply lookup_insert_eq.
      * rewrite bool_decide_eq_false_2 by (intros [?|?]; contradiction).
        now apply lookup_insert_ne.
Qed.

Lemma initialise_pq (g : Graph.t) (s : string) :
  pq (initialise g s) = [Entry.mk s (Fin 0)].
Proof.
  unfold initialise. simpl. now rewrite fold_init_pq.
Qed.

Lemma initialise_source (g : Graph.t) (s : string) :
  distances (initialise g s) !! s = Some (Fin 0).
Proof.
  unfold initialise. simpl. apply lookup_insert_eq.
Qed.

Lemma initialise_other (g : Graph.t) (s k : string) :
  k <> s ->
  distances (initialise g s) !! k =
  if bool_decide (In k (Graph.ids g)) then Some PosInf else None.
Proof.
  intros H. unfold initialise. cbn [distances].
  rewrite lookup_insert_ne by congruence.
  rewrite fold_init_distances. cbn [distances]. now rewrite lookup_empty.
Qed.

Lemma initialise_previous (g : Graph.t) (s k : string) :
  previous (initialise g s) !! k =
  if bool_decide (In k (Graph.ids g)) then Some None else None.
Proof.
  unfold initialise. cbn [previous].
  rewrite fold_init_previous. cbn [previous]. now rewrite lookup_empty.
Qed.

Lemma initialise_predecessor (g : Graph.t) (s k : string) :
  In k (Graph.ids g) \/ inherited k = false ->
  predecessor (previous (initialise g s)) (Id k) = None.
Proof.
  intros H. unfold predecessor, get. cbn [property_key].
  rewrite initialise_previous.
  destruct (decide (In k (Graph.ids g))) as [Hin|Hout].
  - now rewrite bool_decide_eq_true_2.
  - rewrite bool_decide_eq_false_2 by exact Hout.
    destruct H as [H|H]; [contradiction | now rewrite H].
Qed.

(** ** Queries that stop at once *)

Lemma reconstruct_single (n : nat) (prev : gmap string (option string))
  (t : string) :
  predecessor prev (Id t) = None ->
  reconstruct (S (S n)) prev (Some (Id t)) [] =
  Some (if truthy t then [Id t] else []).
Proof.
  intros H. cbn [reconstruct item_truthy]. rewrite H. now destruct (truthy t).
Qed.

Lemma dijkstra_self (n : nat) (g : Graph.t) (x : string) :
  In x (Graph.ids g) \/ inherited x = false ->
  dijkstra (S (S n)) g x x =
  Some {| path := if truthy x then [Id x] else []; distance := Own (Fin 0) |}.
Proof.
  intros Hx. unfold dijkstra. cbn [search]. rewrite initialise_pq.
  cbn [sort insert_sorted Entry.node]. rewrite String.eqb_refl.
  cbn [previous distances].
  rewrite reconstruct_single by now apply initialise_predecessor.
  now rewrite (get_own _ _ _ (initialise_source g x)).
Qed.

Lemma relax_not_incident (u : string) (v : vars) (e : Edge.t) :
  Edge.from e <> u -> Edge.to e <> u -> relax u v e = v.
Proof.
  intros Hf Ht. unfold relax.
  apply String.eqb_neq in Hf, Ht. now rewrite Hf, Ht.
Qed.

Lemma fold_relax_not_incident (u : string) (es : list Edge.t) (v : vars) :
  (forall e, In e es -> Edge.from e <> u /\ Edge.to e <> u) ->
  fold_left (relax u) es v = v.
Proof.
  revert v. induction es as [|e es IH]; intros v H; simpl; [reflexivity|].
  destruct (H e (or_introl eq_refl)) as [Hf Ht].
  rewrite relax_not_incident by assumption.
  apply IH. intros e' He'. apply H. now right.
Qed.

Lemma dijkstra_absent_source (n : nat) (g : Graph.t) (s t : string) :
  valid_snapshot g -> ~ In s (Graph.ids g) -> t <> s -> t <> ""%string ->
  In t (Graph.ids g) \/ inherited t = false ->
  dijkstra (S (S n)) g s t =
  Some {| path := [Id t];
          distance := if bool_decide (In t (Graph.ids g))
                      then Own PosInf else Undefined |}.
Proof.
  intros [_ Hed] Hs Hts Ht Hplain. unfold dijkstra. cbn [search].
  rewrite initialise_pq. cbn [sort insert_sorted Entry.node].
  assert (E : (s =? t)%string = false) by (apply String.eqb_neq; congruence).
  rewrite E.
  rewrite fold_relax_not_incident.
  2:{ intros e He. destruct (Hed e He) as [Hf Hto].
      split; intros Heq; rewrite Heq in *; contradiction. }
  cbn [pq sort previous distances].
  rewrite reconstruct_single by now apply initialise_predecessor.
  apply truthy_true in Ht. rewrite Ht.
  unfold get. rewrite initialise_other by exact Hts.
  destruct (decide (In t (Graph.ids g))) as [Hin|Hout].
  - now rewrite bool_decide_eq_true_2.
  - rewrite bool_decide_eq_false_2 by exact Hout.
    destruct Hplain as [H|H]; [contradiction | now rewrite H].
Qed.

(** C5: for every node [x] of the graph held by the store,
    [shortestPath(x, x)] returns the path [[x]] with cost 0. *)
Theorem shortestPath_self (n : nat) (ops : list op) (x : string) :
  In x (ids (run ops)) ->
  dijkstra (S (S n)) (snapshot (run ops)) x x =
  Some {| path := [Id x]; distance := Own (Fin 0) |}.
Proof.
  intros H. rewrite dijkstra_self by (left; exact H).
  destruct (run_integral ops) as (_ & Hne & _).
  apply Hne, truthy_true in H. now rewrite H.
Qed.

Lemma shortestPath_self_witness :
  dijkstra 2 (snapshot (run [AddNode "A"; AddNode "B"])) "B" "B" =
  Some {| path := [Id "B"]; distance := Own (Fin 0) |}.
Proof.
  apply (shortestPath_self 0 [AddNode "A"; AddNode "B"] "B").
  vm_compute. right. now left.
Defined.


(** ** The queue *)

Lemma insert_sorted_perm (a : Entry.t) (l : list Entry.t) :
  Permutation (insert_sorted a l) (a :: l).
Proof.
  induction l as [|b r IH]; cbn [insert_sorted]; [reflexivity|].
  destruct (num_lt (Fin 0) (comparator a b)); [|reflexivity].
  rewrite IH. apply perm_swap.
Qed.

Lemma sort_perm (l : list Entry.t) : Permutation (sort l) l.
Proof.
  induction l as [|a r IH]; cbn [sort]; [reflexivity|].
  rewrite insert_sorted_perm. now rewrite IH.
Qed.

Lemma comparator_positive (a b : Entry.t) (x y : Z) :
  Entry.distance a = Fin x -> Entry.distance b = Fin y ->
  num_lt (Fin 0) (comparator a b) = (y <? x)%Z.
Proof.
  intros Ha Hb. unfold comparator, num_sub. rewrite Ha, Hb.
  cbn [num_neg num_add]. rewrite round_positive.
  destruct (Z.ltb_spec 0 (x + - y)), (Z.ltb_spec y x); reflexivity || lia.
Qed.

Lemma insert_sorted_head (a : Entry.t) (l : list Entry.t) :
  (exists x, Entry.distance a = Fin x) ->
  (forall e, In e l -> exists x, Entry.distance e = Fin x) ->
  head_least l -> head_least (insert_sorted a l).
Proof.
  intros [x Hx] Hfin Hl. destruct l as [|b r]; cbn [insert_sorted];
    [intros ? []|].
  destruct (Hfin b (or_introl eq_refl)) as [y Hy].
  rewrite (comparator_positive a b x y Hx Hy).
  destruct (Z.ltb_spec y x) as [E|E]; cbn [head_least].
  - intros e He.
    apply (Permutation_in _ (insert_sorted_perm a r)) in He.
    destruct He as [<-|He]; [|now apply Hl].
    exists y, x. repeat split; try assumption. lia.
  - intros e [<-|He].
    + exists x, y. repeat split; try assumption.
    + destruct (Hl e He) as (y' & z & Hy' & Hz & Hle).
      rewrite Hy in Hy'. injection Hy' as <-.
      exists x, z. repeat split; try assumption. lia.
Qed.

Lemma sort_head (l : list Entry.t) :
  (forall e, In e l -> exists x, Entry.distance e = Fin x) ->
  head_least (sort l).
Proof.
  induction l as [|a r IH]; intros Hfin; cbn [sort]; [exact I|].
  apply insert_sorted_head.
  - apply Hfin. now left.
  - intros e He. apply (Permutation_in _ (sort_perm r)) in He.
    apply Hfin. now right.
  - apply IH. intros e He. apply Hfin. now right.
Qed.

(** ** Comparisons against a stored distance *)

Lemma js_lt_true (a : Z) (o : read number) :
  js_lt (Fin a) o = true ->
  o = Own PosInf \/ exists x, o = Own (Fin x) /\ (a < x)%Z.
Proof.
  destruct o as [[| |x|]|k|]; simpl; try discriminate.
  - intros H. right. exists x. split; [reflexivity | now apply Z.ltb_lt].
  - intros _. now left.
Qed.

Lemma js_lt_false_le (nd m : number) :
  dist nd -> dist m -> js_lt nd (Own m) = false -> num_le m nd.
Proof.
  intros [->|(z & -> & _)] [->|(x & -> & _)]; simpl; try (intros; exact I).
  - discriminate.
  - apply Z.ltb_ge.
Qed.

Lemma num_le_antisym (a : Z) (b : number) :
  num_le (Fin a) b -> num_le b (Fin a) -> b = Fin a.
Proof.
  destruct b as [| |x|]; simpl; try tauto. intros H1 H2. f_equal. lia.
Qed.

Lemma num_le_below (x y : Z) (c : number) :
  (x <= y)%Z -> num_le (Fin y) c -> num_le (Fin x) c.
Proof.
  destruct c; simpl; try tauto. lia.
Qed.

(** ** Chains of predecessors *)

Lemma predecessor_own (prev : gmap string (option string)) (k u : string) :
  prev !! k = Some (Some u) -> predecessor prev (Id k) = Some (Id u).
Proof.
  intros H. unfold predecessor, get. cbn [property_key]. now rewrite H.
Qed.

Lemma predecessor_same (prev prev' : gmap string (option string)) (c : item) :
  prev' !! property_key c = prev !! property_key c ->
  predecessor prev' c = predecessor prev c.
Proof.
  intros H. unfold predecessor, get. now rewrite H.
Qed.

Lemma linked_frame (g : Graph.t) (s : string) (done done' : gset string)
  (d d' : gmap string number) (prev prev' : gmap string (option string))
  (k : string) (p : list string) (x : Z) :
  linked g s done d prev k p x ->
  done ⊆ done' ->
  (forall j, j ∈ done -> d' !! j = d !! j) ->
  (forall j, j ∈ done \/ j = k -> prev' !! j = prev !! j) ->
  linked g s done' d' prev' k p x.
Proof.
  intros H Hsub Hd.
  induction H as [Hs Hp|u v p c e w c' Hl IH Hu Hdu Hv Hpv He Hj Hw Hc];
    intros Hprev.
  - apply linked_start; [exact Hs|].
    rewrite (predecessor_same prev prev'); [exact Hp|].
    apply Hprev. now right.
  - apply (linked_step g s done' d' prev' u v p c e w c'); try assumption.
    + apply IH. intros j [Hj'| ->]; apply Hprev; left; assumption.
    + now apply Hsub.
    + rewrite Hd by exact Hu. exact Hdu.
    + rewrite Hprev by now right. exact Hpv.
Qed.

Lemma linked_route (g : Graph.t) (s : string) (done : gset string)
  (d : gmap string number) (prev : gmap string (option string))
  (k : string) (p : list string) (x : Z) :
  linked g s done d prev k p x -> route g s p k (Fin x).
Proof.
  induction 1 as [|u v p c e w c' Hl IH Hu Hdu Hv Hpv He Hj Hw Hc].
  - apply route_start.
  - rewrite <- Hc, <- Hw. now apply (route_step g s p u v e (Fin c)).
Qed.

Lemma linked_reconstruct (g : Graph.t) (s : string) (done : gset string)
  (d : gmap string number) (prev : gmap string (option string))
  (k : string) (p : list string) (x : Z) :
  linked g s done d prev k p x ->
  forall fuel acc, length p < fuel ->
    reconstruct fuel prev (Some (Id k)) acc = Some (map Id p ++ acc).
Proof.
  induction 1 as [Hs Hp|u v p c e w c' Hl IH Hu Hdu Hv Hpv He Hj Hw Hc];
    intros fuel acc Hfuel.
  - destruct fuel as [|[|f]]; simpl in Hfuel; try lia.
    cbn [reconstruct item_truthy]. apply truthy_true in Hs. rewrite Hs, Hp.
    reflexivity.
  - rewrite length_app in Hfuel. simpl in Hfuel.
    destruct fuel as [|f]; [lia|]. cbn [reconstruct item_truthy].
    apply truthy_true in Hv. rewrite Hv.
    rewrite (predecessor_own prev v u Hpv).
    rewrite IH by lia. rewrite map_app, <- app_assoc. reflexivity.
Qed.

Lemma search_more_fuel (g : Graph.t) (t : string) (f f' : nat) (v v' : vars) :
  search f g t v = Some v' -> f <= f' -> search f' g t v = Some v'.
Proof.
  revert f' v. induction f as [|f IH]; intros f' v H Hle; [discriminate|].
  destruct f' as [|f']; [lia|]. cbn [search] in *.
  destruct (sort (pq v)) as [|top rest]; [exact H|].
  destruct (Entry.node top =? t)%string; [exact H|].
  apply IH; [exact H | lia].
Qed.

(** ** One edge examined *)

Lemma relax_unfold (u : string) (v : vars) (e : Edge.t) (z w : Z) :
  distances v !! u = Some (Fin z) -> Edge.weight e = Fin w ->
  (0 <= z)%Z -> double z -> (0 <= w)%Z ->
  ((forall n, ~ joins e u n) /\ relax u v e = v) \/
  (exists n, joins e u n /\ (forall n', joins e u n' -> n' = n) /\
     ((js_lt (num_add (Fin z) (Fin w)) (get (distances v) n) = false /\
       relax u v e = v) \/
      (exists z', num_add (Fin z) (Fin w) = Fin z' /\ (z <= z')%Z /\ double z' /\
         js_lt (Fin z') (get (distances v) n) = true /\
         relax u v e = updated v u n z'))).
Proof.
  intros Hu Hw Hz Hd Hw0. unfold relax. rewrite (get_own _ _ _ Hu), Hw.
  cbn [js_add].
  assert (Hcase : forall n,
            (js_lt (num_add (Fin z) (Fin w)) (get (distances v) n) = false /\
             (if js_lt (num_add (Fin z) (Fin w)) (get (distances v) n)
              then {| distances := <[n := num_add (Fin z) (Fin w)]> (distances v);
                      previous := <[n := Some u]> (previous v);
                      pq := pq v ++ [Entry.mk n (num_add (Fin z) (Fin w))] |}
              else v) = v) \/
            (exists z', num_add (Fin z) (Fin w) = Fin z' /\ (z <= z')%Z /\ double z' /\
               js_lt (Fin z') (get (distances v) n) = true /\
               (if js_lt (num_add (Fin z) (Fin w)) (get (distances v) n)
                then {| distances := <[n := num_add (Fin z) (Fin w)]> (distances v);
                        previous := <[n := Some u]> (previous v);
                        pq := pq v ++ [Entry.mk n (num_add (Fin z) (Fin w))] |}
                else v) = updated v u n z')).
  { intros n.
    destruct (js_lt (num_add (Fin z) (Fin w)) (get (distances v) n)) eqn:E;
      [|left; split; reflexivity].
    right. destruct (extend_cases z w Hz Hd Hw0) as [H|(z' & H & Hle & Hd')];
      rewrite H in *.
    - now destruct (get (distances v) n) as [[]| |].
    - exists z'. repeat split; assumption || reflexivity. }
  destruct (String.eqb_spec (Edge.from e) u) as [Ef|Ef]; cbn [orb].
  - right. exists (Edge.to e). split; [left; split; [exact Ef | reflexivity]|].
    split; [|apply Hcase].
    intros n' [[_ H]|[H1 H2]]; [now symmetry | congruence].
  - destruct (String.eqb_spec (Edge.to e) u) as [Et|Et].
    + right. exists (Edge.from e).
      split; [right; split; [reflexivity | exact Et]|].
      split; [|apply Hcase].
      intros n' [[H _]|[H _]]; [contradiction | now symmetry].
    + left. split; [|reflexivity].
      intros n [[H _]|[_ H]]; contradiction.
Qed.

(** The node taken from the queue has an own distance: the queue only
    holds the start node and nodes whose distance has been written. *)

Lemma owned_initialise (g : Graph.t) (s : string) : owned (initialise g s).
Proof.
  intros e He. rewrite initialise_pq in He. destruct He as [<-|[]].
  cbn [Entry.node]. rewrite initialise_source. now eexists.
Qed.

Lemma owned_relax (u : string) (v : vars) (e : Edge.t) :
  owned v -> owned (relax u v e).
Proof.
  intros Hv. unfold relax.
  destruct ((Edge.from e =? u) || (Edge.to e =? u))%string; [|exact Hv].
  destruct (js_lt _ _); [|exact Hv].
  set (n := if (Edge.from e =? u)%string then Edge.to e else Edge.from e).
  intros a Ha. cbn [pq distances] in *. apply in_app_iff in Ha.
  destruct Ha as [Ha|[<-|[]]].
  - destruct (decide (n = Entry.node a)) as [<-|E].
    + rewrite lookup_insert_eq. now eexists.
    + rewrite lookup_insert_ne by exact E. now apply Hv.
  - cbn [Entry.node]. rewrite lookup_insert_eq. now eexists.
Qed.

Lemma owned_extract (v : vars) (top : Entry.t) (rest : list Entry.t) :
  owned v -> sort (pq v) = top :: rest ->
  (exists a, get (distances v) (Entry.node top) = Own a) /\
  (forall es, owned (fold_left (relax (Entry.node top)) es (dequeued v rest))).
Proof.
  intros Hv Hsort.
  assert (Hin : forall e, In e (top :: rest) -> In e (pq v)).
  { intros e He. rewrite <- Hsort in He.
    exact (Permutation_in _ (sort_perm (pq v)) He). }
  assert (Hrest : owned (dequeued v rest)).
  { intros e He. apply Hv, Hin. now right. }
  assert (Hfold : forall es w, owned w -> owned (fold_left (relax (Entry.node top)) es w)).
  { induction es as [|e es IH]; intros w Hw; cbn [fold_left]; [exact Hw|].
    apply IH, owned_relax, Hw. }
  split; [|intros es; now apply Hfold].
  destruct (Hv top (Hin top (or_introl eq_refl))) as [a Ha].
  exists a. now apply get_own.
Qed.

Lemma core_complete (g : Graph.t) (s : string) (done : gset string)
  (cur cur' : string) (seen seen' : list Edge.t) (v : vars) :
  core g s done cur seen v ->
  (forall e, In e (Graph.edges g) -> In e seen) ->
  core g s done cur' seen' v.
Proof.
  intros [H1 H2 H3 H4 H5 H6 H7 H8 H9] Hall.
  split; try assumption.
  intros k e n w Hk He _. apply H7; try assumption.
  intros _. now apply Hall.
Qed.

Section Search.

Variables (g : Graph.t) (s : string).
Hypothesis Hvalid : valid_snapshot g.
Hypothesis Hnonneg : nonneg_weights g.
Hypothesis Hs : s <> ""%string.
Hypothesis Hsource : In s (Graph.ids g) \/ inherited s = false.

Lemma joins_endpoint (e : Edge.t) (u n : string) :
  In e (Graph.edges g) -> joins e u n -> In n (Graph.ids g).
Proof.
  intros He Hj. destruct Hvalid as [_ Hed]. destruct (Hed e He) as [Hf Ht].
  destruct Hj as [[_ <-]|[<- _]]; assumption.
Qed.

Lemma core_double (done : gset string) (cur : string) (seen : list Edge.t)
  (v : vars) (k : string) (x : Z) :
  core g s done cur seen v -> distances v !! k = Some (Fin x) ->
  (0 <= x)%Z /\ double x.
Proof.
  intros Hc Hk. destruct (core_range _ _ _ _ _ _ Hc k _ Hk) as [H|(y & Hy & H0)];
    [discriminate|]. injection Hy as ->. exact H0.
Qed.

Lemma update_core (done : gset string) (u : string) (seen : list Edge.t)
  (v : vars) (e : Edge.t) (n : string) (z w z' : Z) :
  core g s done u seen v ->
  u ∈ done -> distances v !! u = Some (Fin z) ->
  In e (Graph.edges g) -> joins e u n -> (forall n', joins e u n' -> n' = n) ->
  Edge.weight e = Fin w ->
  num_add (Fin z) (Fin w) = Fin z' -> (z <= z')%Z -> double z' ->
  n ∉ done ->
  js_lt (Fin z') (get (distances v) n) = true ->
  core g s done u (e :: seen) (updated v u n z').
Proof.
  intros Hc Hu Hdu He Hj Huniq Hw Hadd Hzz Hdz Hn Hlt.
  destruct (core_double _ _ _ _ _ _ Hc Hdu) as [Hz _].
  destruct Hc as [H1 H2 H3 H4 H5 H6 H7 H8 H9].
  assert (Hns : n <> s).
  { intros ->. apply js_lt_true in Hlt. rewrite (get_own _ _ _ H1) in Hlt.
    destruct Hlt as [Habs|(x & Hx & Hlt)]; [discriminate|].
    injection Hx as <-. lia. }
  assert (Hne : n <> ""%string).
  { destruct Hvalid as [Hid _]. apply Hid. exact (joins_endpoint e u n He Hj). }
  assert (Hkeep : forall j, j ∈ done ->
            <[n := Fin z']> (distances v) !! j = distances v !! j).
  { intros j Hj'. apply lookup_insert_ne. intros ->. contradiction. }
  assert (Hbelow : forall n2 m c, distances v !! n2 = Some m -> num_le m c ->
            exists m', <[n := Fin z']> (distances v) !! n2 = Some m' /\
                       num_le m' c).
  { intros n2 m c Hm Hle. destruct (decide (n = n2)) as [<-|E].
    - exists (Fin z'). rewrite lookup_insert_eq. split; [reflexivity|].
      apply js_lt_true in Hlt. rewrite (get_own _ _ _ Hm) in Hlt.
      destruct Hlt as [Habs|(x' & Hx' & Hlt)].
      + injection Habs as ->. now destruct c.
      + injection Hx' as ->. apply (num_le_below z' x' c); [lia | exact Hle].
    - exists m. rewrite lookup_insert_ne by exact E. split; assumption. }
  split; unfold updated; cbn [distances previous].
  - rewrite lookup_insert_ne by exact Hns. exact H1.
  - intros k m Hk. destruct (decide (n = k)) as [<-|E].
    + rewrite lookup_insert_eq in Hk. injection Hk as <-.
      right. exists z'. split; [reflexivity|]. split; [lia | exact Hdz].
    + rewrite lookup_insert_ne in Hk by exact E. now apply (H2 k).
  - intros k Hk. destruct (decide (n = k)) as [<-|E].
    + rewrite lookup_insert_eq. eexists. reflexivity.
    + rewrite lookup_insert_ne by exact E. now apply H3.
  - intros k Hk. rewrite Hkeep by exact Hk. now apply H4.
  - intros k u' Hk. destruct (decide (n = k)) as [<-|E].
    + rewrite lookup_insert_eq. eexists. reflexivity.
    + rewrite lookup_insert_ne in Hk by exact E.
      rewrite lookup_insert_ne by exact E. now apply (H5 k u').
  - intros k x Hk. destruct (decide (n = k)) as [<-|E].
    + rewrite lookup_insert_eq in Hk. injection Hk as <-.
      destruct (H6 u z Hdu) as [p Hp]. exists (p ++ [n]).
      apply (linked_step g s done _ _ u n p z e w z'); try assumption.
      * apply (linked_frame g s done done (distances v) _ (previous v) _ u p z Hp);
          [reflexivity | exact Hkeep |].
        intros j [Hj'| ->]; apply lookup_insert_ne; intros ->; contradiction.
      * rewrite Hkeep by exact Hu. exact Hdu.
      * apply lookup_insert_eq.
    + rewrite lookup_insert_ne in Hk by exact E.
      destruct (H6 k x Hk) as [p Hp]. exists p.
      apply (linked_frame g s done done (distances v) _ (previous v) _ k p x Hp);
        [reflexivity | exact Hkeep |].
      intros j [Hj'| ->]; apply lookup_insert_ne;
        [intros ->; contradiction | exact E].
  - intros k e2 n2 w2 Hk He2 Hcond Hj2 Hw2.
    assert (Hold : (k = u -> In e2 seen) ->
              exists y m, <[n := Fin z']> (distances v) !! k = Some (Fin y) /\
                <[n := Fin z']> (distances v) !! n2 = Some m /\
                num_le m (num_add (Fin y) (Fin w2))).
    { intros Hc'. destruct (H7 k e2 n2 w2 Hk He2 Hc' Hj2 Hw2)
        as (y & m & Hy & Hm & Hle).
      destruct (Hbelow n2 m _ Hm Hle) as (m' & Hm' & Hle').
      exists y, m'. rewrite Hkeep by exact Hk. repeat split; assumption. }
    destruct (decide (k = u)) as [->|Eku]; [|apply Hold; intros; contradiction].
    destruct (Hcond eq_refl) as [<-|Hseen]; [|apply Hold; intros; exact Hseen].
    rewrite (Huniq n2 Hj2). rewrite Hw in Hw2. injection Hw2 as <-.
    exists z, (Fin z'). rewrite Hkeep by exact Hu. rewrite lookup_insert_eq.
    split; [exact Hdu|]. split; [reflexivity|]. rewrite Hadd. simpl. lia.
  - intros k Hk. destruct (decide (n = k)) as [<-|E].
    + left. exact (joins_endpoint e u n He Hj).
    + rewrite lookup_insert_ne in Hk by exact E. now apply H8.
  - intros k Hk. destruct (decide (n = k)) as [<-|E].
    + rewrite lookup_insert_eq. eexists. reflexivity.
    + rewrite lookup_insert_ne by exact E. now apply H9.
Qed.

Lemma update_queued (done : gset string) (u : string) (v : vars)
  (n : string) (z z' : Z) :
  queued done v -> farthest done u v ->
  distances v !! u = Some (Fin z) -> (z <= z')%Z -> n ∉ done ->
  js_lt (Fin z') (get (distances v) n) = true ->
  queued done (updated v u n z').
Proof.
  intros [Q1 Q2 Q3] [Hu Hfar] Hdu Hzz Hn Hlt.
  split; unfold updated; cbn [distances pq].
  - intros k x Hk Hd. apply in_app_iff. destruct (decide (n = k)) as [<-|E].
    + rewrite lookup_insert_eq in Hd. injection Hd as <-. right. now left.
    + rewrite lookup_insert_ne in Hd by exact E. left. now apply Q1.
  - intros e He. apply in_app_iff in He. destruct He as [He|[<-|[]]].
    + destruct (Q2 e He) as (k & x & Hk & Hx & Hle).
      destruct (decide (n = Entry.node e)) as [E|E].
      * exists k, z'. rewrite <- E, lookup_insert_eq.
        repeat split; try assumption.
        apply js_lt_true in Hlt. rewrite E, (get_own _ _ _ Hx) in Hlt.
        destruct Hlt as [Habs|(x' & Hx' & Hlt)]; [discriminate|].
        injection Hx' as <-. lia.
      * exists k, x. rewrite lookup_insert_ne by exact E.
        repeat split; assumption.
    + exists z', z'. cbn [Entry.node Entry.distance].
      rewrite lookup_insert_eq. repeat split; lia.
  - intros e j He Hj. assert (Ej : n <> j) by (intros ->; contradiction).
    rewrite lookup_insert_ne by exact Ej.
    apply in_app_iff in He. destruct He as [He|[<-|[]]].
    + now apply Q3.
    + destruct (Hfar j Hj) as (y & z2 & Hy & Hz2 & Hle).
      rewrite Hdu in Hz2. injection Hz2 as <-.
      exists z', y. cbn [Entry.distance].
      repeat split; [exact Hy | lia].
Qed.

Lemma update_farthest (done : gset string) (u : string) (v : vars)
  (n : string) (x : Z) :
  farthest done u v -> n ∉ done -> farthest done u (updated v u n x).
Proof.
  intros [Hu Hfar] Hn. split; [exact Hu|].
  intros j Hj. destruct (Hfar j Hj) as (y & z & Hy & Hz & Hle).
  exists y, z. unfold updated; cbn [distances].
  rewrite !lookup_insert_ne by (intros ->; contradiction).
  repeat split; assumption.
Qed.

Lemma core_seen_cons (done : gset string) (u : string) (seen : list Edge.t)
  (v : vars) (e : Edge.t) :
  core g s done u seen v ->
  (forall n w, joins e u n -> Edge.weight e = Fin w ->
     exists y m, distances v !! u = Some (Fin y) /\
                 distances v !! n = Some m /\
                 num_le m (num_add (Fin y) (Fin w))) ->
  core g s done u (e :: seen) v.
Proof.
  intros [H1 H2 H3 H4 H5 H6 H7 H8 H9] Hnew. split; try assumption.
  intros k e2 n2 w2 Hk He2 Hcond Hj2 Hw2.
  destruct (decide (k = u)) as [->|Eku];
    [|apply (H7 k e2 n2 w2); try assumption; intros; contradiction].
  destruct (Hcond eq_refl) as [<-|Hseen].
  - now apply Hnew.
  - apply (H7 u e2 n2 w2); try assumption. intros _. exact Hseen.
Qed.

Lemma relax_fresh (done : gset string) (u : string) (seen : list Edge.t)
  (v : vars) (e : Edge.t) :
  In e (Graph.edges g) ->
  core g s done u seen v -> queued done v -> farthest done u v ->
  core g s done u (e :: seen) (relax u v e) /\
  queued done (relax u v e) /\
  farthest done u (relax u v e) /\
  length (pq (relax u v e)) <= S (length (pq v)) /\
  dom (distances (relax u v e)) = dom (distances v).
Proof.
  intros He Hc Hq Hf.
  pose proof Hf as [Hu Hfar].
  destruct (Hfar u Hu) as (z & z0 & Hdu & _ & _).
  destruct (core_double _ _ _ _ _ _ Hc Hdu) as [Hz Hdz].
  destruct (Hnonneg e He) as (w & Hw & Hw0).
  destruct (relax_unfold u v e z w Hdu Hw Hz Hdz Hw0)
    as [[Hno ->]|(n & Hj & Huniq &
                  [[Hlt ->]|(z' & Hadd & Hzz & Hdz' & Hlt & ->)])].
  - split; [|split; [exact Hq|split; [exact Hf|split; [lia|reflexivity]]]].
    apply core_seen_cons; [exact Hc|].
    intros n w' Hj _. destruct (Hno n Hj).
  - split; [|split; [exact Hq|split; [exact Hf|split; [lia|reflexivity]]]].
    apply core_seen_cons; [exact Hc|].
    intros n' w' Hj' Hw'. rewrite (Huniq n' Hj').
    rewrite Hw in Hw'. injection Hw' as <-.
    destruct (core_nodes _ _ _ _ _ _ Hc n (joins_endpoint e u n He Hj)) as [m Hm].
    exists z, m. split; [exact Hdu|]. split; [exact Hm|].
    rewrite (get_own _ _ _ Hm) in Hlt.
    apply js_lt_false_le; [|exact (core_range _ _ _ _ _ _ Hc n m Hm) | exact Hlt].
    apply extend_dist; [|exact Hw0].
    exact (core_range _ _ _ _ _ _ Hc u _ Hdu).
  - assert (Hn : n ∉ done).
    { intros Hn. destruct (Hfar n Hn) as (y & z2 & Hy & Hz2 & Hle).
      rewrite Hdu in Hz2. injection Hz2 as <-.
      apply js_lt_true in Hlt. rewrite (get_own _ _ _ Hy) in Hlt.
      destruct Hlt as [Habs|(x' & Hx' & Hlt)]; [discriminate|].
      injection Hx' as <-. lia. }
    split; [now apply (update_core done u seen v e n z w z')|].
    split; [now apply (update_queued done u v n z z')|].
    split; [now apply update_farthest|].
    unfold updated; cbn [pq distances]. split.
    + rewrite length_app. simpl. lia.
    + rewrite dom_insert_L.
      assert (Hdom : n ∈ dom (distances v)).
      { apply elem_of_dom.
        exact (core_nodes _ _ _ _ _ _ Hc n (joins_endpoint e u n He Hj)). }
      apply set_eq. intros k. rewrite elem_of_union, elem_of_singleton.
      split; [intros [->|Hk]; assumption | intros Hk; now right].
Qed.

Lemma fold_relax_fresh (done : gset string) (u : string) (es : list Edge.t) :
  forall (seen : list Edge.t) (v : vars),
  (forall e, In e es -> In e (Graph.edges g)) ->
  core g s done u seen v -> queued done v -> farthest done u v ->
  core g s done u (rev es ++ seen) (fold_left (relax u) es v) /\
  queued done (fold_left (relax u) es v) /\
  length (pq (fold_left (relax u) es v)) <= length (pq v) + length es /\
  dom (distances (fold_left (relax u) es v)) = dom (distances v).
Proof.
  induction es as [|e es IH]; intros seen v Hes Hc Hq Hf; cbn [fold_left rev].
  - cbn [app length].
    split; [exact Hc|split; [exact Hq|split; [lia|reflexivity]]].
  - destruct (relax_fresh done u seen v e (Hes e (or_introl eq_refl)) Hc Hq Hf)
      as (Hc' & Hq' & Hf' & Hlen & Hdom).
    destruct (IH (e :: seen) (relax u v e)
                (fun e' He' => Hes e' (or_intror He')) Hc' Hq' Hf')
      as (Hc2 & Hq2 & Hlen2 & Hdom2).
    rewrite <- app_assoc. cbn [app length].
    split; [exact Hc2|split; [exact Hq2|split; [lia|congruence]]].
Qed.

Lemma relax_stale (done : gset string) (cur : string) (seen : list Edge.t)
  (v : vars) (u : string) (e : Edge.t) :
  core g s done cur seen v -> u ∈ done ->
  In e (Graph.edges g) -> (u = cur -> In e seen) ->
  relax u v e = v.
Proof.
  intros Hc Hu He Hcond.
  destruct (core_done _ _ _ _ _ _ Hc u Hu) as [z Hdu].
  destruct (core_double _ _ _ _ _ _ Hc Hdu) as [Hz Hdz].
  destruct (Hnonneg e He) as (w & Hw & Hw0).
  destruct (relax_unfold u v e z w Hdu Hw Hz Hdz Hw0)
    as [[_ ->]|(n & Hj & _ & [[_ ->]|(z' & Hadd & _ & _ & Hlt & _)])];
    try reflexivity.
  destruct (core_relaxed _ _ _ _ _ _ Hc u e n w Hu He Hcond Hj Hw)
    as (y & m & Hy & Hm & Hle).
  rewrite Hdu in Hy. injection Hy as <-. rewrite Hadd in Hle.
  rewrite (get_own _ _ _ Hm) in Hlt.
  destruct m as [| |x|]; simpl in Hle, Hlt; try contradiction; try discriminate.
  apply Z.ltb_lt in Hlt. lia.
Qed.

Lemma fold_relax_stale (done : gset string) (v : vars) (u : string)
  (es : list Edge.t) :
  core g s done s (Graph.edges g) v -> u ∈ done ->
  (forall e, In e es -> In e (Graph.edges g)) ->
  fold_left (relax u) es v = v.
Proof.
  intros Hc Hu. induction es as [|e es IH]; intros Hes; cbn [fold_left];
    [reflexivity|].
  rewrite (relax_stale done s (Graph.edges g) v u e Hc Hu);
    [|apply Hes; now left | intros _; apply Hes; now left].
  apply IH. intros e' He'. apply Hes. now right.
Qed.
(** *** One entry extracted *)

Lemma extract_stale (done : gset string) (v : vars) (top : Entry.t)
  (rest : list Entry.t) :
  core g s done s (Graph.edges g) v -> queued done v ->
  Permutation (pq v) (top :: rest) -> Entry.node top ∈ done ->
  core g s done s (Graph.edges g) (dequeued v rest) /\
  queued done (dequeued v rest).
Proof.
  intros Hc [Q1 Q2 Q3] Hperm Htop.
  assert (Hin : forall e, In e rest -> In e (pq v)).
  { intros e He. apply (Permutation_in _ (Permutation_sym Hperm)). now right. }
  split; [destruct Hc; split; assumption|].
  split; unfold dequeued; cbn [distances pq].
  - intros k x Hk Hd.
    destruct (Permutation_in _ Hperm (Q1 k x Hk Hd)) as [E|H]; [|exact H].
    exfalso. apply Hk. rewrite E in Htop. exact Htop.
  - intros e He. apply Q2, Hin, He.
  - intros e j He Hj. apply Q3; [apply Hin, He | exact Hj].
Qed.

Lemma extract_fresh (done : gset string) (v : vars) (top : Entry.t)
  (rest : list Entry.t) :
  core g s done s (Graph.edges g) v -> queued done v ->
  Permutation (pq v) (top :: rest) -> head_least (top :: rest) ->
  Entry.node top ∉ done ->
  core g s (done ∪ {[Entry.node top]}) (Entry.node top) [] (dequeued v rest) /\
  queued (done ∪ {[Entry.node top]}) (dequeued v rest) /\
  farthest (done ∪ {[Entry.node top]}) (Entry.node top) (dequeued v rest).
Proof.
  intros Hc [Q1 Q2 Q3] Hperm Hleast Htop.
  set (u := Entry.node top) in *.
  assert (Hin : forall e, In e rest -> In e (pq v)).
  { intros e He. apply (Permutation_in _ (Permutation_sym Hperm)). now right. }
  assert (Hintop : In top (pq v)).
  { apply (Permutation_in _ (Permutation_sym Hperm)). now left. }
  destruct (Q2 top Hintop) as (k & x & Hk & Hx & Hxk). fold u in Hx.
  assert (Hkx : (k <= x)%Z).
  { destruct (Permutation_in _ Hperm (Q1 u x Htop Hx)) as [E|H].
    - rewrite E in Hk. cbn [Entry.distance] in Hk. injection Hk as <-. lia.
    - destruct (Hleast _ H) as (a & b & Ha & Hb & Hab).
      rewrite Hk in Ha. injection Ha as <-.
      cbn [Entry.distance] in Hb. injection Hb as <-. exact Hab. }
  split; [|split].
  - destruct Hc as [H1 H2 H3 H4 H5 H6 H7 H8 H9].
    split; unfold dequeued; cbn [distances previous]; try assumption.
    + intros j Hj. apply elem_of_union in Hj. destruct Hj as [Hj|Hj].
      * now apply H4.
      * apply elem_of_singleton in Hj. subst j. now exists x.
    + intros j y Hj. destruct (H6 j y Hj) as [p Hp]. exists p.
      apply (linked_frame g s done _ (distances v) _ (previous v) _ j p y Hp);
        [apply union_subseteq_l | reflexivity | reflexivity].
    + intros j e n w Hj He Hcond Hjn Hw.
      apply elem_of_union in Hj. destruct Hj as [Hj|Hj].
      * apply (H7 j e n w); try assumption. intros _. exact He.
      * apply elem_of_singleton in Hj. destruct (Hcond Hj).
  - split; unfold dequeued; cbn [distances pq].
    + intros j y Hj Hd.
      assert (Hj1 : j ∉ done) by (intros H; apply Hj, elem_of_union; now left).
      destruct (Permutation_in _ Hperm (Q1 j y Hj1 Hd)) as [E|H]; [|exact H].
      exfalso. apply Hj, elem_of_union. right. apply elem_of_singleton.
      unfold u. now rewrite E.
    + intros e He. apply Q2, Hin, He.
    + intros e j He Hj. apply elem_of_union in Hj. destruct Hj as [Hj|Hj].
      * apply Q3; [apply Hin, He | exact Hj].
      * apply elem_of_singleton in Hj. subst j.
        destruct (Hleast e He) as (a & b & Ha & Hb & Hab).
        rewrite Hk in Ha. injection Ha as <-.
        exists b, x. repeat split; try assumption. lia.
  - split; [apply elem_of_union; right; now apply elem_of_singleton|].
    intros j Hj. unfold dequeued; cbn [distances].
    apply elem_of_union in Hj. destruct Hj as [Hj|Hj].
    + destruct (Q3 top j Hintop Hj) as (k' & y & Hk' & Hy & Hle).
      rewrite Hk in Hk'. injection Hk' as <-.
      exists y, x. repeat split; try assumption. lia.
    + apply elem_of_singleton in Hj. subst j.
      exists x, x. repeat split; try assumption. lia.
Qed.

(** *** Routes against the invariant *)

Lemma route_dist (p : list string) (x : string) (c : number) :
  route g s p x c -> dist c.
Proof.
  induction 1 as [|p u n e c Hr IH He Hj]; [apply dist_zero|].
  destruct (Hnonneg e He) as (w & -> & Hw0). now apply extend_dist.
Qed.

Lemma route_bound (done : gset string) (v : vars) (p : list string)
  (x : string) (c : number) :
  core g s done s (Graph.edges g) v -> queued done v ->
  route g s p x c ->
  c = PosInf \/
  (x ∈ done /\ exists y, distances v !! x = Some (Fin y) /\ num_le (Fin y) c) \/
  (exists e k, In e (pq v) /\ Entry.distance e = Fin k /\ num_le (Fin k) c).
Proof.
  intros Hc Hq. induction 1 as [|p u n e c Hr IH He Hj].
  - right. destruct (decide (s ∈ done)) as [H|H].
    + left. split; [exact H|]. exists 0%Z.
      split; [apply (core_source _ _ _ _ _ _ Hc) | simpl; lia].
    + right. exists (Entry.mk s (Fin 0)), 0%Z.
      split; [|split; [reflexivity | simpl; lia]].
      apply (queued_fresh _ _ Hq); [exact H | apply (core_source _ _ _ _ _ _ Hc)].
  - pose proof (route_dist _ _ _ Hr) as Hdc.
    destruct (Hnonneg e He) as (w & Hw & Hw0). rewrite Hw.
    destruct IH as [->|[[Hu (y & Hy & Hle)]|(e' & k & He' & Hk & Hle)]].
    + now left.
    + destruct (core_relaxed _ _ _ _ _ _ Hc u e n w Hu He (fun _ => He) Hj Hw)
        as (y' & m & Hy' & Hm & Hle').
      rewrite Hy in Hy'. injection Hy' as <-.
      assert (Hmc : num_le m (num_add c (Fin w))).
      { apply (num_le_trans _ _ _ Hle'). apply extend_mono; try assumption.
        exact (core_range _ _ _ _ _ _ Hc u _ Hy). }
      destruct (core_range _ _ _ _ _ _ Hc n m Hm) as [->|(x' & -> & _)].
      * left. now destruct (num_add c (Fin w)).
      * right. destruct (decide (n ∈ done)) as [H|H].
        -- left. split; [exact H|]. exists x'. split; assumption.
        -- right. exists (Entry.mk n (Fin x')), x'.
           split; [|split; [reflexivity | exact Hmc]].
           now apply (queued_fresh _ _ Hq).
    + right. right. exists e', k. repeat split; try assumption.
      apply (num_le_trans _ _ _ Hle). now apply extend_ge.
Qed.

(** *** The loop *)

Lemma budget_stale (done : gset string) (v : vars) (top : Entry.t)
  (rest : list Entry.t) :
  Permutation (pq v) (top :: rest) ->
  budget g done (dequeued v rest) < budget g done v.
Proof.
  intros Hperm. apply Permutation_length in Hperm.
  unfold budget, dequeued; cbn [pq distances]. rewrite Hperm. simpl. lia.
Qed.

Lemma budget_fresh (done : gset string) (v v2 : vars) (top : Entry.t)
  (rest : list Entry.t) :
  Permutation (pq v) (top :: rest) ->
  Entry.node top ∉ done -> Entry.node top ∈ dom (distances v) ->
  length (pq v2) <= length rest + length (Graph.edges g) ->
  dom (distances v2) = dom (distances v) ->
  budget g (done ∪ {[Entry.node top]}) v2 < budget g done v.
Proof.
  intros Hperm Htop Hdom Hlen Hd. apply Permutation_length in Hperm.
  unfold budget. rewrite Hd, Hperm. cbn [length].
  assert (Hlt : size (dom (distances v) ∖ (done ∪ {[Entry.node top]}))
                < size (dom (distances v) ∖ done)).
  { apply subset_size. split.
    - intros k Hk. apply elem_of_difference in Hk. destruct Hk as [Hk1 Hk2].
      apply elem_of_difference. split; [exact Hk1|].
      intros H. apply Hk2, elem_of_union. now left.
    - intros Hsub.
      assert (H : Entry.node top ∈ dom (distances v) ∖ done)
        by (apply elem_of_difference; split; assumption).
      apply Hsub, elem_of_difference in H. destruct H as [_ H].
      apply H, elem_of_union. right. now apply elem_of_singleton. }
  nia.
Qed.

Lemma search_settles (t : string) (fuel : nat) :
  forall (done : gset string) (v : vars),
  core g s done s (Graph.edges g) v -> queued done v ->
  budget g done v < fuel ->
  exists v', search fuel g t v = Some v' /\ settled g s t v'.
Proof.
  induction fuel as [|fuel IH]; intros done v Hc Hq Hb; [lia|].
  cbn [search].
  pose proof (Permutation_sym (sort_perm (pq v))) as Hperm.
  assert (Hhead : head_least (sort (pq v))).
  { apply sort_head. intros e He.
    destruct (queued_keys _ _ Hq e He) as (k & _ & Hk & _). now exists k. }
  destruct (sort (pq v)) as [|top rest].
  - exists v. split; [reflexivity|]. split; [exists done; exact Hc|].
    intros p c Hr.
    destruct (route_bound done v p t c Hc Hq Hr)
      as [H|[[_ H]|(e & k & He & _)]]; [now left | now right |].
    apply Permutation_nil_r in Hperm. rewrite Hperm in He. destruct He.
  - change {| distances := distances v; previous := previous v; pq := rest |}
      with (dequeued v rest).
    assert (Hintop : In top (pq v)).
    { apply (Permutation_in _ (Permutation_sym Hperm)). now left. }
    destruct (String.eqb_spec (Entry.node top) t) as [Et|Et].
    + exists (dequeued v rest). split; [reflexivity|]. split.
      * exists done. destruct Hc; split; assumption.
      * intros p c Hr. unfold dequeued; cbn [distances].
        destruct (route_bound done v p t c Hc Hq Hr)
          as [H|[[_ H]|(e & k & He & Hk & Hle)]]; [now left | now right |].
        right.
        destruct (queued_keys _ _ Hq top Hintop) as (k0 & x & Hk0 & Hx & Hxk).
        rewrite Et in Hx. exists x. split; [exact Hx|].
        apply (num_le_below x k c); [|exact Hle].
        destruct (Permutation_in _ Hperm He) as [E|H].
        -- rewrite E in Hk0. rewrite Hk in Hk0. injection Hk0 as <-. lia.
        -- destruct (Hhead e H) as (a & b & Ha & Hkb & Hab).
           rewrite Hk0 in Ha. injection Ha as <-.
           rewrite Hk in Hkb. injection Hkb as <-. lia.
    + destruct (decide (Entry.node top ∈ done)) as [Hin|Hout].
      * destruct (extract_stale done v top rest Hc Hq Hperm Hin) as [Hc1 Hq1].
        rewrite (fold_relax_stale done (dequeued v rest) (Entry.node top)
                   (Graph.edges g) Hc1 Hin (fun e He => He)).
        apply (IH done); try assumption.
        pose proof (budget_stale done v top rest Hperm). lia.
      * destruct (extract_fresh done v top rest Hc Hq Hperm Hhead Hout)
          as (Hc1 & Hq1 & Hf1).
        destruct (fold_relax_fresh (done ∪ {[Entry.node top]}) (Entry.node top)
                    (Graph.edges g) [] (dequeued v rest)
                    (fun e He => He) Hc1 Hq1 Hf1)
          as (Hc2 & Hq2 & Hlen & Hdom).
        apply (IH (done ∪ {[Entry.node top]})).
        -- apply (core_complete g s _ (Entry.node top) s
                    (rev (Graph.edges g) ++ []) (Graph.edges g) _ Hc2).
           intros e He. apply in_app_iff. left. now apply in_rev in He.
        -- exact Hq2.
        -- assert (Hd : Entry.node top ∈ dom (distances v)).
           { destruct (queued_keys _ _ Hq top Hintop) as (k0 & x & _ & Hx & _).
             apply elem_of_dom. now exists (Fin x). }
           pose proof (budget_fresh done v _ top rest Hperm Hout Hd Hlen Hdom).
           lia.
Qed.

(** *** The invariant on entry *)

Lemma initialise_finite (k : string) (x : Z) :
  distances (initialise g s) !! k = Some (Fin x) -> k = s /\ x = 0%Z.
Proof.
  intros H. destruct (decide (k = s)) as [->|E].
  - rewrite initialise_source in H. injection H as <-. now split.
  - rewrite initialise_other in H by exact E.
    destruct (bool_decide _); discriminate.
Qed.

Lemma initialise_core : core g s ∅ s (Graph.edges g) (initialise g s).
Proof.
  split.
  - apply initialise_source.
  - intros k n H. destruct (decide (k = s)) as [->|E].
    + rewrite initialise_source in H. injection H as <-. apply dist_zero.
    + rewrite initialise_other in H by exact E.
      destruct (bool_decide _); [injection H as <-; now left | discriminate].
  - intros k Hk. destruct (decide (k = s)) as [->|E].
    + rewrite initialise_source. now eexists.
    + rewrite initialise_other by exact E.
      rewrite bool_decide_eq_true_2 by exact Hk. now eexists.
  - intros k Hk. apply not_elem_of_empty in Hk. destruct Hk.
  - intros k u H. rewrite initialise_previous in H.
    destruct (bool_decide _); discriminate.
  - intros k x H. destruct (initialise_finite k x H) as [-> ->].
    exists [s]. apply linked_start; [exact Hs | now apply initialise_predecessor].
  - intros k e n w Hk. apply not_elem_of_empty in Hk. destruct Hk.
  - intros k [n Hk]. destruct (decide (k = s)) as [E|E]; [now right|].
    rewrite initialise_other in Hk by exact E. left.
    destruct (decide (In k (Graph.ids g))) as [H|H]; [exact H|].
    rewrite bool_decide_eq_false_2 in Hk by exact H. discriminate.
  - intros k Hk. rewrite initialise_previous.
    rewrite bool_decide_eq_true_2 by exact Hk. now eexists.
Qed.

Lemma initialise_queued : queued ∅ (initialise g s).
Proof.
  split.
  - intros k x _ H. destruct (initialise_finite k x H) as [-> ->].
    rewrite initialise_pq. now left.
  - intros e He. rewrite initialise_pq in He. destruct He as [<-|[]].
    exists 0%Z, 0%Z. cbn [Entry.node Entry.distance].
    rewrite initialise_source. repeat split; lia.
  - intros e j _ Hj. apply not_elem_of_empty in Hj. destruct Hj.
Qed.

Lemma search_finishes (t : string) :
  exists fuel v,
    search fuel g t (initialise g s) = Some v /\ settled g s t v.
Proof.
  exists (S (budget g ∅ (initialise g s))).
  destruct (search_settles t (S (budget g ∅ (initialise g s))) ∅ (initialise g s)
              initialise_core initialise_queued) as (v & Hv & Hset); [lia|].
  now exists v.
Qed.

(** *** The cost of the chain *)

Lemma joinsb_joins (e : Edge.t) (u v : string) :
  joinsb e u v = true <-> joins e u v.
Proof.
  unfold joinsb, joins.
  rewrite orb_true_iff, !andb_true_iff, !String.eqb_eq. tauto.
Qed.

Lemma link_weight_upper (es : list Edge.t) (u v : string) (e : Edge.t) (w : Z) :
  In e es -> joins e u v -> Edge.weight e = Fin w ->
  exists m, link_weight es u v = Some m /\ (m <= w)%Z.
Proof.
  induction es as [|a es IH]; intros Hin Hj Hw; [destruct Hin|].
  cbn [link_weight]. destruct Hin as [->|Hin].
  - apply joinsb_joins in Hj. rewrite Hj, Hw.
    destruct (link_weight es u v) as [m|].
    + exists (Z.min w m). split; [reflexivity | lia].
    + exists w. split; [reflexivity | lia].
  - destruct (IH Hin Hj Hw) as (m & Hm & Hle). rewrite Hm.
    destruct (joinsb a u v); [|now exists m].
    destruct (Edge.weight a) as [| |wa|]; try now exists m.
    exists (Z.min wa m). split; [reflexivity | lia].
Qed.

Lemma link_weight_in (es : list Edge.t) (u v : string) (m : Z) :
  link_weight es u v = Some m ->
  exists e, In e es /\ joins e u v /\ Edge.weight e = Fin m.
Proof.
  revert m. induction es as [|a es IH]; intros m Hm; [discriminate|].
  cbn [link_weight] in Hm.
  assert (Hrest : forall m', link_weight es u v = Some m' ->
            exists e, In e (a :: es) /\ joins e u v /\ Edge.weight e = Fin m').
  { intros m' H. destruct (IH m' H) as (e & He & Hj & Hw).
    exists e. split; [now right | split; assumption]. }
  destruct (joinsb a u v) eqn:Ej; [|now apply Hrest].
  apply joinsb_joins in Ej.
  destruct (Edge.weight a) as [| |wa|] eqn:Ea; try now apply Hrest.
  destruct (link_weight es u v) as [m'|].
  - injection Hm as <-. destruct (Z.min_spec wa m') as [[_ ->]|[_ ->]].
    + exists a. split; [now left | split; assumption].
    + now apply Hrest.
  - injection Hm as <-. exists a. split; [now left | split; assumption].
Qed.

Lemma path_cost_snoc (p : list string) (u v : string) (a c : number) (w : Z) :
  path_cost_from g a (p ++ [u]) = Some c ->
  link_weight (Graph.edges g) u v = Some w ->
  path_cost_from g a ((p ++ [u]) ++ [v]) = Some (num_add c (Fin w)).
Proof.
  revert a. induction p as [|x p IH]; intros a Hc Hw.
  - injection Hc as <-. cbn [app path_cost_from]. now rewrite Hw.
  - change ((x :: p) ++ [u]) with (x :: (p ++ [u])) in *.
    destruct (p ++ [u]) as [|b r] eqn:Epu; [destruct p; discriminate|].
    change ((x :: b :: r) ++ [v]) with (x :: b :: (r ++ [v])).
    change ((b :: r) ++ [v]) with (b :: (r ++ [v])) in IH.
    cbn [path_cost_from] in Hc. cbn [path_cost_from].
    destruct (link_weight (Graph.edges g) x b) as [wxb|]; [|discriminate].
    now apply IH.
Qed.

Lemma linked_last (done : gset string) (d : gmap string number)
  (prev : gmap string (option string)) (k : string) (p : list string) (x : Z) :
  linked g s done d prev k p x -> exists p', p = p' ++ [k].
Proof.
  intros [|u v p0 c e w c' _ _ _ _ _ _ _ _ _]; [now exists [] | now exists p0].
Qed.

Lemma linked_cost (done : gset string) (cur : string) (v : vars)
  (k : string) (p : list string) (x : Z) :
  core g s done cur (Graph.edges g) v ->
  linked g s done (distances v) (previous v) k p x ->
  distances v !! k = Some (Fin x) ->
  path_cost g p = Some (Fin x).
Proof.
  intros Hc. induction 1 as [|u n p c e w c' Hl IH Hu Hdu Hn Hpn He Hj Hw Hadd];
    intros Hk; [reflexivity|].
  specialize (IH Hdu).
  destruct (linked_last _ _ _ _ _ _ Hl) as [p' ->].
  destruct (link_weight_upper (Graph.edges g) u n e w He Hj Hw) as (m & Hm & Hmw).
  unfold path_cost in *. rewrite (path_cost_snoc p' u n _ _ m IH Hm).
  f_equal.
  destruct (link_weight_in (Graph.edges g) u n m Hm) as (e' & He' & Hj' & Hw').
  destruct (core_relaxed _ _ _ _ _ _ Hc u e' n m Hu He' (fun _ => He') Hj' Hw')
    as (y & mm & Hy & Hmm & Hle).
  rewrite Hdu in Hy. injection Hy as <-.
  rewrite Hk in Hmm. injection Hmm as <-.
  apply num_le_antisym; [exact Hle|].
  rewrite <- Hadd. now apply extend_mono_weight.
Qed.

End Search.


(** ** What [dijkstra] returns *)

Lemma route_target_nonempty (g : Graph.t) (s t : string) (p : list string)
  (c : number) :
  valid_snapshot g -> s <> ""%string -> route g s p t c -> t <> ""%string.
Proof.
  intros Hvalid Hs Hr. destruct Hr as [|p u v e c Hr He Hj]; [exact Hs|].
  destruct Hvalid as [Hid Hed]. apply Hid.
  exact (joins_endpoint g (conj Hid Hed) e u v He Hj).
Qed.

Lemma dijkstra_outcome (g : Graph.t) (s t : string) :
  valid_snapshot g -> nonneg_weights g -> s <> ""%string ->
  In s (Graph.ids g) \/ inherited s = false ->
  In t (Graph.ids g) \/ inherited t = false ->
  exists fuel r,
    dijkstra fuel g s t = Some r /\
    ((exists x q done d prev,
        distance r = Own (Fin x) /\ path r = map Id q /\
        linked g s done d prev t q x /\
        path_cost g q = Some (Fin x) /\
        forall p c, route g s p t c -> num_le (Fin x) c) \/
     (distance r = (if bool_decide (In t (Graph.ids g))
                    then Own PosInf else Undefined) /\
      path r = (if truthy t then [Id t] else []) /\
      forall p c, route g s p t c -> c = PosInf)).
Proof.
  intros Hvalid Hnonneg Hs Hsource Htarget.
  destruct (search_finishes g s Hvalid Hnonneg Hs Hsource t)
    as (f0 & v & Hsearch & [done Hc] & Hopt).
  assert (Hcase : (exists x, distances v !! t = Some (Fin x)) \/
                  (distances v !! t = Some PosInf \/ distances v !! t = None)).
  { destruct (distances v !! t) as [n|] eqn:Hd; [|right; now right].
    destruct (core_range _ _ _ _ _ _ Hc t n Hd) as [->|(x & -> & _)];
      [right; now left | left; now exists x]. }
  destruct Hcase as [[x Hd]|Hu].
  - destruct (core_linked _ _ _ _ _ _ Hc t x Hd) as [p0 Hl].
    exists (f0 + S (length p0)),
      {| path := map Id p0; distance := Own (Fin x) |}.
    split.
    + unfold dijkstra.
      rewrite (search_more_fuel g t f0 _ _ v Hsearch) by lia.
      rewrite (linked_reconstruct g s done _ _ t p0 x Hl) by lia.
      now rewrite app_nil_r, (get_own _ _ _ Hd).
    + left. exists x, p0, done, (distances v), (previous v).
      split; [reflexivity|]. split; [reflexivity|]. split; [exact Hl|].
      split; [exact (linked_cost g s Hsource done s v t p0 x Hc Hl Hd)|].
      intros p c Hr. destruct (Hopt p c Hr) as [->|(x' & Hx' & Hle)]; [exact I|].
      rewrite Hd in Hx'. injection Hx' as <-. exact Hle.
  - assert (Hfin : forall x, distances v !! t <> Some (Fin x)).
    { intros x Hx. destruct Hu as [H|H]; rewrite H in Hx; discriminate. }
    assert (Hpred : predecessor (previous v) (Id t) = None).
    { unfold predecessor, get. cbn [property_key].
      destruct (previous v !! t) as [[u|]|] eqn:E; try reflexivity.
      - destruct (core_prev _ _ _ _ _ _ Hc t u E) as [x Hx]. destruct (Hfin x Hx).
      - destruct Htarget as [Hin|Hplain]; [|now rewrite Hplain].
        destruct (core_links _ _ _ _ _ _ Hc t Hin) as [o Ho]. congruence. }
    exists (S (S f0)), {| path := if truthy t then [Id t] else [];
                          distance := get (distances v) t |}.
    split.
    + unfold dijkstra.
      rewrite (search_more_fuel g t f0 _ _ v Hsearch) by lia.
      now rewrite reconstruct_single.
    + right. split; [|split; [reflexivity|]].
      * cbn [distance]. destruct Hu as [H|H].
        -- rewrite (get_own _ _ _ H). rewrite bool_decide_eq_true_2; [reflexivity|].
           destruct (core_keys _ _ _ _ _ _ Hc t) as [Hin|Heq];
             [now rewrite H | exact Hin|].
           rewrite Heq, (core_source _ _ _ _ _ _ Hc) in H. discriminate.
        -- assert (Hout : ~ In t (Graph.ids g)).
           { intros Hin. destruct (core_nodes _ _ _ _ _ _ Hc t Hin) as [o Ho].
             congruence. }
           rewrite bool_decide_eq_false_2 by exact Hout.
           apply get_missing; [exact H|].
           destruct Htarget as [Hin|Hplain]; [contradiction | exact Hplain].
      * intros p c Hr. destruct (Hopt p c Hr) as [H|(x & Hx & _)]; [exact H|].
        destruct (Hfin x Hx).
Qed.

(** *** Queries made by the component *)

Lemma session_query (evs : list event) :
  valid_snapshot (snapshot (session evs)) /\
  inherited (Form.from (newEdge (session evs))) = false /\
  inherited (Form.to (newEdge (session evs))) = false.
Proof.
  destruct (session_upper_form evs) as [Hf Ht].
  split; [apply session_valid_snapshot|].
  split; apply upper_not_inherited; assumption.
Qed.

Lemma findShortestPath_runs (fuel : nat) (st : state) (r : result) :
  Form.from (newEdge st) <> ""%string -> Form.to (newEdge st) <> ""%string ->
  dijkstra fuel (snapshot st) (Form.from (newEdge st)) (Form.to (newEdge st)) = Some r ->
  findShortestPath fuel st = Some (setShortestPath (Some r) st).
Proof.
  intros Hf Ht Hd. unfold findShortestPath.
  apply truthy_true in Hf, Ht. now rewrite Hf, Ht, Hd.
Qed.

Lemma findShortestPath_outcome (evs : list event) (s t : string) :
  Form.from (newEdge (session evs)) = s -> Form.to (newEdge (session evs)) = t ->
  s <> ""%string -> t <> ""%string ->
  nonneg_weights (snapshot (session evs)) ->
  exists fuel r,
    findShortestPath fuel (session evs) = Some (setShortestPath (Some r) (session evs)) /\
    ((exists x q done d prev,
        distance r = Own (Fin x) /\ path r = map Id q /\
        linked (snapshot (session evs)) s done d prev t q x /\
        path_cost (snapshot (session evs)) q = Some (Fin x) /\
        forall p c, route (snapshot (session evs)) s p t c -> num_le (Fin x) c) \/
     (distance r = (if bool_decide (In t (ids (session evs)))
                    then Own PosInf else Undefined) /\
      path r = [Id t] /\
      forall p c, route (snapshot (session evs)) s p t c -> c = PosInf)).
Proof.
  intros Ef Et Hs Ht Hnonneg.
  destruct (session_query evs) as (Hvalid & Hif & Hit).
  rewrite Ef in Hif. rewrite Et in Hit.
  destruct (dijkstra_outcome (snapshot (session evs)) s t Hvalid Hnonneg Hs
              (or_intror Hif) (or_intror Hit)) as (fuel & r & Hd & Hcase).
  exists fuel, r. split.
  - apply findShortestPath_runs; rewrite ?Ef, ?Et; assumption.
  - destruct Hcase as [H|(Hu & Hp & Hno)]; [now left|].
    right. split; [exact Hu|]. split; [|exact Hno].
    apply truthy_true in Ht. now rewrite Ht in Hp.
Qed.

(** *** The examples *)

Lemma triangle_clicks_snapshot : snapshot (session triangle_clicks) = triangle.
Proof. vm_compute. reflexivity. Qed.

Lemma lonely_clicks_snapshot : snapshot (session lonely_clicks) = lonely.
Proof. vm_compute. reflexivity. Qed.

Lemma triangle_valid : valid_snapshot triangle.
Proof.
  split.
  - intros i [<-|[<-|[<-|[]]]]; discriminate.
  - intros e [<-|[<-|[<-|[]]]]; vm_compute; tauto.
Qed.

Lemma triangle_nonneg : nonneg_weights triangle.
Proof.
  intros e [<-|[<-|[<-|[]]]]; eexists; (split; [reflexivity | vm_compute; discriminate]).
Qed.

Lemma triangle_direct : route triangle "A" ["A"; "C"]%string "C" (Fin (5 * one)).
Proof.
  change (Fin (5 * one))
    with (num_add (Fin 0) (Edge.weight (Edge.mk "A" "C" "5" (Fin (5 * one))))).
  apply (route_step triangle "A" ["A"%string] "A" "C"
           (Edge.mk "A" "C" "5" (Fin (5 * one))) (Fin 0)).
  - apply route_start.
  - right. right. now left.
  - left. split; reflexivity.
Qed.

Lemma triangle_clicks_nonneg : nonneg_weights (snapshot (session triangle_clicks)).
Proof. rewrite triangle_clicks_snapshot. exact triangle_nonneg. Qed.

Lemma triangle_clicks_direct :
  route (snapshot (session triangle_clicks)) "A" ["A"; "C"]%string "C" (Fin (5 * one)).
Proof. rewrite triangle_clicks_snapshot. exact triangle_direct. Qed.

Lemma lonely_no_route (p : list string) (c : number) : ~ route lonely "A" p "B" c.
Proof.
  intros H. inversion H as [|p0 u v e c0 Hr He Hj]; subst.
  destruct He.
Qed.

Lemma heavy_line_nonneg : nonneg_weights (snapshot (session heavy_line)).
Proof.
  intros e He. vm_compute in He.
  destruct He as [<-|[<-|[]]]; eexists; (split; [reflexivity | discriminate]).
Qed.

Lemma heavy_line_route :
  exists c, route (snapshot (session heavy_line)) "A" ["A"; "B"; "C"]%string "C" c.
Proof.
  eexists.
  apply (route_step _ "A" ["A"; "B"]%string "B" "C"
           (Edge.mk "B" "C" "1e308" (parseFloat_string "1e308"))).
  - apply (route_step _ "A" ["A"%string] "A" "B"
             (Edge.mk "A" "B" "1e308" (parseFloat_string "1e308"))).
    + apply route_start.
    + vm_compute. now left.
    + left. split; reflexivity.
  - vm_compute. right. now left.
  - left. split; reflexivity.
Qed.

(** *** The claims about [shortestPath] *)

(** C1, as stated, fails when the sums overflow.  With the nodes A, B, C
    and the edges A-B and B-C of weight 1e308, C is reachable from A and
    no weight is negative, but A-B-C adds up to [Infinity], which is not
    less than the initial distance of C: the query (A, C) returns the path
    [[C]], which does not start at A, with cost [Infinity]. *)
Lemma heavy_line_loses_path :
  Form.from (newEdge (session heavy_line)) = "A"%string /\
  Form.to (newEdge (session heavy_line)) = "C"%string /\
  nonneg_weights (snapshot (session heavy_line)) /\
  (exists c, route (snapshot (session heavy_line)) "A" ["A"; "B"; "C"]%string "C" c) /\
  findShortestPath 4 (session heavy_line) =
  Some (setShortestPath (Some {| path := [Id "C"]; distance := Own PosInf |})
          (session heavy_line)).
Proof.
  split; [reflexivity|]. split; [reflexivity|].
  split; [exact heavy_line_nonneg|]. split; [exact heavy_line_route|].
  vm_compute. reflexivity.
Qed.

(** C1, amended: in every state the component reaches, when no stored
    weight is negative and some path from the (non-empty) source to the
    target has a finite cost - the weights along it added from left to
    right as doubles - [shortestPath] returns a path from the source to
    the target; the cost returned is the cost of that path, and no path
    between them has a smaller cost.  On the triangle A-B 1, B-C 1, A-C 5
    the query (A, C) returns the path [A, B, C] with cost 2. *)
Theorem dijkstra_minimum (evs : list event) (s t : string) (p : list string)
  (c : Z) :
  Form.from (newEdge (session evs)) = s -> Form.to (newEdge (session evs)) = t ->
  s <> ""%string ->
  nonneg_weights (snapshot (session evs)) ->
  route (snapshot (session evs)) s p t (Fin c) ->
  (exists fuel r x q,
     findShortestPath fuel (session evs) =
       Some (setShortestPath (Some r) (session evs)) /\
     distance r = Own (Fin x) /\ path r = map Id q /\
     route (snapshot (session evs)) s q t (Fin x) /\
     forall p' c', route (snapshot (session evs)) s p' t c' -> num_le (Fin x) c') /\
  findShortestPath 4 (session triangle_clicks) =
  Some (setShortestPath
          (Some {| path := [Id "A"; Id "B"; Id "C"]; distance := Own (Fin (2 * one)) |})
          (session triangle_clicks)).
Proof.
  intros Ef Et Hs Hnonneg Hr. split; [|vm_compute; reflexivity].
  pose proof (route_target_nonempty _ s t p _ (session_valid_snapshot evs) Hs Hr) as Ht.
  destruct (findShortestPath_outcome evs s t Ef Et Hs Ht Hnonneg)
    as (fuel & r & Hd & [(x & q & done & d & prev & Hx & Hq & Hl & _ & Hmin)|
                         (_ & _ & Hno)]).
  - exists fuel, r, x, q. split; [exact Hd|]. split; [exact Hx|].
    split; [exact Hq|]. split; [|exact Hmin].
    exact (linked_route _ s done d prev t q x Hl).
  - specialize (Hno p _ Hr). discriminate.
Qed.

Lemma dijkstra_minimum_witness :
  (exists fuel r x q,
     findShortestPath fuel (session triangle_clicks) =
       Some (setShortestPath (Some r) (session triangle_clicks)) /\
     distance r = Own (Fin x) /\ path r = map Id q /\
     route (snapshot (session triangle_clicks)) "A" q "C" (Fin x) /\
     forall p' c', route (snapshot (session triangle_clicks)) "A" p' "C" c' ->
                   num_le (Fin x) c') /\
  findShortestPath 4 (session triangle_clicks) =
  Some (setShortestPath
          (Some {| path := [Id "A"; Id "B"; Id "C"]; distance := Own (Fin (2 * one)) |})
          (session triangle_clicks)).
Proof.
  apply (dijkstra_minimum triangle_clicks "A" "C" ["A"; "C"]%string (5 * one)).
  - reflexivity.
  - reflexivity.
  - discriminate.
  - exact triangle_clicks_nonneg.
  - exact triangle_clicks_direct.
Defined.

(** C4, as stated, fails when the sums overflow.  On the line A-B-C with
    two edges of weight 1e308, C is reachable from A, the query (A, C)
    returns the path [[C]] with cost [Infinity], and the weights along a
    path of one node add up to 0. *)
Lemma heavy_line_cost_is_no_sum :
  (exists c, route (snapshot (session heavy_line)) "A" ["A"; "B"; "C"]%string "C" c) /\
  findShortestPath 4 (session heavy_line) =
  Some (setShortestPath (Some {| path := [Id "C"]; distance := Own PosInf |})
          (session heavy_line)) /\
  path_cost (snapshot (session heavy_line)) ["C"%string] = Some (Fin 0).
Proof.
  split; [exact heavy_line_route|]. split; [vm_compute; reflexivity | reflexivity].
Qed.

(** C4, amended: in every state the component reaches, when no stored
    weight is negative and some path from the (non-empty) source to the
    target has a finite cost, the cost that [shortestPath] returns is the
    sum, added from left to right as doubles over the consecutive pairs of
    the returned path, of the weight of the edge joining the pair (the
    lightest one when several edges join it). *)
Theorem dijkstra_cost_is_path_sum (evs : list event) (s t : string)
  (p : list string) (c : Z) :
  Form.from (newEdge (session evs)) = s -> Form.to (newEdge (session evs)) = t ->
  s <> ""%string ->
  nonneg_weights (snapshot (session evs)) ->
  route (snapshot (session evs)) s p t (Fin c) ->
  exists fuel r x q,
    findShortestPath fuel (session evs) =
      Some (setShortestPath (Some r) (session evs)) /\
    distance r = Own (Fin x) /\ path r = map Id q /\
    path_cost (snapshot (session evs)) q = Some (Fin x).
Proof.
  intros Ef Et Hs Hnonneg Hr.
  pose proof (route_target_nonempty _ s t p _ (session_valid_snapshot evs) Hs Hr) as Ht.
  destruct (findShortestPath_outcome evs s t Ef Et Hs Ht Hnonneg)
    as (fuel & r & Hd & [(x & q & done & d & prev & Hx & Hq & _ & Hcost & _)|
                         (_ & _ & Hno)]).
  - exists fuel, r, x, q. repeat split; assumption.
  - specialize (Hno p _ Hr). discriminate.
Qed.

Lemma dijkstra_cost_is_path_sum_witness :
  exists fuel r x q,
    findShortestPath fuel (session triangle_clicks) =
      Some (setShortestPath (Some r) (session triangle_clicks)) /\
    distance r = Own (Fin x) /\ path r = map Id q /\
    path_cost (snapshot (session triangle_clicks)) q = Some (Fin x).
Proof.
  apply (dijkstra_cost_is_path_sum triangle_clicks "A" "C" ["A"; "C"]%string (5 * one)).
  - reflexivity.
  - reflexivity.
  - discriminate.
  - exact triangle_clicks_nonneg.
  - exact triangle_clicks_direct.
Defined.

(** C6, as stated, fails when the target is the absent source itself: on
    the empty graph left by [clear()], [shortestPath(A, A)] has cost 0,
    which is not the unreachable cost. *)
Lemma absent_source_self_cost_zero :
  ids (session [ChangeNode "a"; ClickAddNode; ClickClear;
                ChangeFrom "a"; ChangeTo "a"]) = [] /\
  findShortestPath 2 (session [ChangeNode "a"; ClickAddNode; ClickClear;
                               ChangeFrom "a"; ChangeTo "a"]) =
  Some (setShortestPath (Some {| path := [Id "A"]; distance := Own (Fin 0) |})
          (session [ChangeNode "a"; ClickAddNode; ClickClear;
                    ChangeFrom "a"; ChangeTo "a"])) /\
  ~ unreachable (Own (Fin 0)).
Proof.
  split; [reflexivity|]. split; [reflexivity|].
  intros [H|H]; discriminate.
Qed.

(** C6, amended: in every state the component reaches, when the source is
    not a node of the graph (as is every source after [clear()]) and the
    target is another id, both being non-empty, [shortestPath] returns the
    path [[target]] with an unreachable cost: [Infinity] when the target
    is a node, [undefined] when it is not. *)
Theorem shortestPath_absent_source (n : nat) (evs : list event) (s t : string) :
  Form.from (newEdge (session evs)) = s -> Form.to (newEdge (session evs)) = t ->
  s <> ""%string -> t <> ""%string ->
  ~ In s (ids (session evs)) -> t <> s ->
  exists d,
    findShortestPath (S (S n)) (session evs) =
      Some (setShortestPath (Some {| path := [Id t]; distance := d |}) (session evs)) /\
    unreachable d /\
    (In t (ids (session evs)) -> d = Own PosInf) /\
    (~ In t (ids (session evs)) -> d = Undefined).
Proof.
  intros Ef Et Hs Ht Hout Hts.
  destruct (session_query evs) as (Hvalid & _ & Hit). rewrite Et in Hit.
  pose proof (dijkstra_absent_source n (snapshot (session evs)) s t
                Hvalid Hout Hts Ht (or_intror Hit)) as Hd.
  eexists. split.
  - apply findShortestPath_runs; rewrite ?Ef, ?Et; eassumption.
  - change (Graph.ids (snapshot (session evs))) with (ids (session evs)).
    destruct (decide (In t (ids (session evs)))) as [H|H].
    + rewrite bool_decide_eq_true_2 by exact H.
      split; [now left|]. split; [reflexivity | contradiction].
    + rewrite bool_decide_eq_false_2 by exact H.
      split; [now right|]. split; [contradiction | reflexivity].
Qed.

Lemma shortestPath_absent_source_witness :
  exists d,
    findShortestPath 2 (session [ChangeNode "a"; ClickAddNode; ClickClear;
                                 ChangeFrom "a"; ChangeTo "b"]) =
      Some (setShortestPath (Some {| path := [Id "B"]; distance := d |})
              (session [ChangeNode "a"; ClickAddNode; ClickClear;
                        ChangeFrom "a"; ChangeTo "b"])) /\
    unreachable d /\
    (In "B"%string (ids (session [ChangeNode "a"; ClickAddNode; ClickClear;
                                  ChangeFrom "a"; ChangeTo "b"])) -> d = Own PosInf) /\
    (~ In "B"%string (ids (session [ChangeNode "a"; ClickAddNode; ClickClear;
                                    ChangeFrom "a"; ChangeTo "b"])) -> d = Undefined).
Proof.
  apply (shortestPath_absent_source 0
           [ChangeNode "a"; ClickAddNode; ClickClear; ChangeFrom "a"; ChangeTo "b"]
           "A" "B").
  - reflexivity.
  - reflexivity.
  - discriminate.
  - discriminate.
  - vm_compute. tauto.
  - discriminate.
Defined.

(** C7: in every state the component reaches, when no stored weight is
    negative and no route leads from the source to the target (both
    non-empty), [shortestPath] returns an unreachable cost ([Infinity] or
    [undefined], never a finite number and in particular not 0) and a path
    that does not contain the source.  With the single node [A] and no
    edge, the query (A, B) returns an unreachable cost. *)
Theorem dijkstra_no_route (evs : list event) (s t : string) :
  Form.from (newEdge (session evs)) = s -> Form.to (newEdge (session evs)) = t ->
  s <> ""%string -> t <> ""%string ->
  nonneg_weights (snapshot (session evs)) ->
  (forall p c, ~ route (snapshot (session evs)) s p t c) ->
  (exists fuel r,
     findShortestPath fuel (session evs) =
       Some (setShortestPath (Some r) (session evs)) /\
     unreachable (distance r) /\
     (forall q, distance r <> Own (Fin q)) /\
     ~ In (Id s) (path r)) /\
  findShortestPath 2 (session lonely_clicks) =
  Some (setShortestPath (Some {| path := [Id "B"]; distance := Undefined |})
          (session lonely_clicks)).
Proof.
  intros Ef Et Hs Ht Hnonneg Hno. split; [|reflexivity].
  assert (Hts : t <> s) by (intros ->; exact (Hno [s] _ (route_start _ s))).
  destruct (findShortestPath_outcome evs s t Ef Et Hs Ht Hnonneg)
    as (fuel & r & Hd & [(x & q & done & d & prev & _ & _ & Hl & _)|
                         (Hu & Hp & _)]).
  - destruct (Hno q _ (linked_route _ s done d prev t q x Hl)).
  - exists fuel, r. split; [exact Hd|]. rewrite Hu, Hp. split; [|split].
    + destruct (bool_decide _); [now left | now right].
    + intros q. destruct (bool_decide _); discriminate.
    + intros [H|[]]. injection H as H. contradiction.
Qed.

Lemma dijkstra_no_route_witness :
  (exists fuel r,
     findShortestPath fuel (session lonely_clicks) =
       Some (setShortestPath (Some r) (session lonely_clicks)) /\
     unreachable (distance r) /\
     (forall q, distance r <> Own (Fin q)) /\
     ~ In (Id "A") (path r)) /\
  findShortestPath 2 (session lonely_clicks) =
  Some (setShortestPath (Some {| path := [Id "B"]; distance := Undefined |})
          (session lonely_clicks)).
Proof.
  apply (dijkstra_no_route lonely_clicks "A" "B").
  - reflexivity.
  - reflexivity.
  - discriminate.
  - discriminate.
  - intros e [].
  - rewrite lonely_clicks_snapshot. exact lonely_no_route.
Defined.

(** C10: in every state the component reaches, whatever the graph and
    whether or not [x] is one of its nodes, a query whose two fields hold
    the same non-empty string [x] returns the path [[x]] with cost 0.
    ([findShortestPath] runs no query when a field is empty.) *)
Theorem dijkstra_self_query (n : nat) (evs : list event) (x : string) :
  Form.from (newEdge (session evs)) = x -> Form.to (newEdge (session evs)) = x ->
  x <> ""%string ->
  findShortestPath (S (S n)) (session evs) =
  Some (setShortestPath (Some {| path := [Id x]; distance := Own (Fin 0) |})
          (session evs)).
Proof.
  intros Ef Et Hx.
  destruct (session_query evs) as (_ & Hif & _). rewrite Ef in Hif.
  apply findShortestPath_runs; rewrite ?Ef, ?Et; try assumption.
  rewrite dijkstra_self by (right; exact Hif).
  apply truthy_true in Hx. now rewrite Hx.
Qed.

Lemma dijkstra_self_query_witness :
  findShortestPath 2 (session [ChangeFrom "z"; ChangeTo "z"]) =
  Some (setShortestPath (Some {| path := [Id "Z"]; distance := Own (Fin 0) |})
          (session [ChangeFrom "z"; ChangeTo "z"])).
Proof.
  apply (dijkstra_self_query 0 [ChangeFrom "z"; ChangeTo "z"] "Z").
  - reflexivity.
  - reflexivity.
  - discriminate.
Defined.

(** * More on [dijkstra] *)

(** ** Sorting the queue *)

Lemma insert_sorted_sorted (a : Entry.t) (l : list Entry.t) :
  (exists x, Entry.distance a = Fin x) ->
  (forall e, In e l -> exists x, Entry.distance e = Fin x) ->
  StronglySorted key_le l -> StronglySorted key_le (insert_sorted a l).
Proof.
  intros [x Hx] Hfin Hl. induction Hl as [|b r Hr IH Hb]; cbn [insert_sorted].
  - constructor; constructor.
  - destruct (Hfin b (or_introl eq_refl)) as [y Hy].
    rewrite (comparator_positive a b x y Hx Hy).
    destruct (Z.ltb_spec y x) as [E|E].
    + constructor.
      * apply IH. intros e He. apply Hfin. now right.
      * apply List.Forall_forall. intros e He.
        apply (Permutation_in _ (insert_sorted_perm a r)) in He.
        destruct He as [<-|He].
        -- exists y, x. repeat split; try assumption. lia.
        -- exact (proj1 (List.Forall_forall _ _) Hb e He).
    + constructor; [now constructor|].
      constructor.
      * exists x, y. repeat split; assumption.
      * apply List.Forall_forall. intros e He.
        destruct (proj1 (List.Forall_forall _ _) Hb e He) as (y' & z & Hy' & Hz & Hle).
        rewrite Hy in Hy'. injection Hy' as <-.
        exists x, z. repeat split; try assumption. lia.
Qed.

Lemma filter_insert_sorted (k : Z) (a : Entry.t) (l : list Entry.t) :
  (exists x, Entry.distance a = Fin x) ->
  (forall e, In e l -> exists x, Entry.distance e = Fin x) ->
  List.filter (same_key k) (insert_sorted a l) =
  if same_key k a then a :: List.filter (same_key k) l
  else List.filter (same_key k) l.
Proof.
  intros [x Hx] Hfin. induction l as [|b r IH]; cbn [insert_sorted].
  - cbn [List.filter]. now destruct (same_key k a).
  - destruct (Hfin b (or_introl eq_refl)) as [y Hy].
    rewrite (comparator_positive a b x y Hx Hy).
    destruct (Z.ltb_spec y x) as [E|E].
    + cbn [List.filter].
      rewrite IH by (intros e He; apply Hfin; now right).
      destruct (same_key k a) eqn:Ea; [|reflexivity].
      assert (Eb : same_key k b = false).
      { unfold same_key in *. rewrite Hx in Ea. rewrite Hy.
        apply Z.eqb_eq in Ea. apply Z.eqb_neq. lia. }
      now rewrite Eb.
    + cbn [List.filter]. now destruct (same_key k a).
Qed.

(** [pq.sort] on a queue of finite keys: the entries are kept, they come
    out in non-decreasing order of distance, and entries of equal
    distance keep their insertion order. *)
Theorem sort_stable (l : list Entry.t) :
  (forall e, In e l -> exists x, Entry.distance e = Fin x) ->
  Permutation (sort l) l /\
  StronglySorted key_le (sort l) /\
  forall k, List.filter (same_key k) (sort l) = List.filter (same_key k) l.
Proof.
  intros Hfin. split; [apply sort_perm|].
  induction l as [|a r IH]; cbn [sort].
  - split; [constructor | reflexivity].
  - assert (Hr : forall e, In e r -> exists x, Entry.distance e = Fin x)
      by (intros e He; apply Hfin; now right).
    assert (Hsr : forall e, In e (sort r) -> exists x, Entry.distance e = Fin x).
    { intros e He. apply Hr. exact (Permutation_in _ (sort_perm r) He). }
    destruct (IH Hr) as [Hs Hf]. split.
    + apply insert_sorted_sorted; [apply Hfin; now left | exact Hsr | exact Hs].
    + intros k. rewrite filter_insert_sorted; [|apply Hfin; now left | exact Hsr].
      rewrite Hf. cbn [List.filter]. reflexivity.
Qed.

Lemma sort_stable_witness :
  Permutation
    (sort [Entry.mk "C" (Fin (5 * one)); Entry.mk "B" (Fin (2 * one));
           Entry.mk "D" (Fin (5 * one))])
    [Entry.mk "C" (Fin (5 * one)); Entry.mk "B" (Fin (2 * one));
     Entry.mk "D" (Fin (5 * one))] /\
  StronglySorted key_le
    (sort [Entry.mk "C" (Fin (5 * one)); Entry.mk "B" (Fin (2 * one));
           Entry.mk "D" (Fin (5 * one))]) /\
  forall k,
    List.filter (same_key k)
      (sort [Entry.mk "C" (Fin (5 * one)); Entry.mk "B" (Fin (2 * one));
             Entry.mk "D" (Fin (5 * one))]) =
    List.filter (same_key k)
      [Entry.mk "C" (Fin (5 * one)); Entry.mk "B" (Fin (2 * one));
       Entry.mk "D" (Fin (5 * one))].
Proof.
  apply (sort_stable [Entry.mk "C" (Fin (5 * one)); Entry.mk "B" (Fin (2 * one));
                      Entry.mk "D" (Fin (5 * one))]).
  intros e [<-|[<-|[<-|[]]]]; eexists; reflexivity.
Defined.

(** ** Edges that are never used *)

Lemma rounded_initialise (g : Graph.t) (s : string) : rounded (initialise g s).
Proof.
  intros k x H. destruct (decide (k = s)) as [->|E].
  - rewrite initialise_source in H. injection H as <-. reflexivity.
  - rewrite initialise_other in H by exact E.
    destruct (bool_decide _); discriminate.
Qed.

Lemma num_add_double (a b : number) (x : Z) : num_add a b = Fin x -> double x.
Proof.
  destruct a, b; simpl; try discriminate. apply round_fixed.
Qed.

Lemma rounded_relax (u : string) (v : vars) (e : Edge.t) :
  rounded v -> rounded (relax u v e).
Proof.
  intros Hv. unfold relax.
  destruct ((Edge.from e =? u) || (Edge.to e =? u))%string; [|exact Hv].
  destruct (js_lt _ _); [|exact Hv].
  intros k x. cbn [distances].
  set (n := if (Edge.from e =? u)%string then Edge.to e else Edge.from e).
  destruct (decide (n = k)) as [<-|E].
  - rewrite lookup_insert_eq. intros H. injection H as H.
    destruct (get (distances v) u) as [a| |]; cbn [js_add] in H; try discriminate.
    exact (num_add_double _ _ _ H).
  - rewrite lookup_insert_ne by exact E. apply Hv.
Qed.

Lemma rounded_fold_relax (u : string) (es : list Edge.t) (v : vars) :
  rounded v -> rounded (fold_left (relax u) es v).
Proof.
  revert v. induction es as [|e es IH]; intros v Hv; cbn [fold_left]; [exact Hv|].
  apply IH, rounded_relax, Hv.
Qed.

Lemma relax_inert (u : string) (v : vars) (e : Edge.t) :
  inert e -> rounded v -> relax u v e = v.
Proof.
  intros [Hw|[Hw|(Hl & w & Hw & Hw0)]] Hv; unfold relax; rewrite Hw.
  - destruct ((Edge.from e =? u) || (Edge.to e =? u))%string; [|reflexivity].
    assert (E : js_add (get (distances v) u) NaN = NaN)
      by (destruct (get (distances v) u) as [[]| |]; reflexivity).
    rewrite E.
    now destruct (get (distances v) (if (Edge.from e =? u)%string
                                     then Edge.to e else Edge.from e)) as [[]| |].
  - destruct ((Edge.from e =? u) || (Edge.to e =? u))%string; [|reflexivity].
    destruct (get (distances v) u) as [[]| |];
      now destruct (get (distances v) (if (Edge.from e =? u)%string
                                       then Edge.to e else Edge.from e)) as [[]| |].
  - rewrite <- Hl. rewrite orb_diag.
    destruct (String.eqb_spec (Edge.from e) u) as [E|E]; [|reflexivity].
    rewrite E. unfold get.
    destruct (distances v !! u) as [[| |x|]|] eqn:Hd; try reflexivity;
      [|now destruct (inherited u)].
    cbn [js_add num_add js_lt].
    pose proof (round_mono x (x + w) ltac:(lia)) as Hm.
    rewrite (Hv u x Hd) in Hm.
    destruct (round (x + w) 1) as [| |y|]; cbn [num_le] in Hm.
    + destruct Hm.
    + destruct Hm.
    + cbn [num_lt]. rewrite (proj2 (Z.ltb_ge y x)) by lia. reflexivity.
    + reflexivity.
Qed.

Lemma fold_relax_inert (u : string) (es1 es2 : list Edge.t) (e : Edge.t) (v : vars) :
  inert e -> rounded v ->
  fold_left (relax u) (es1 ++ e :: es2) v = fold_left (relax u) (es1 ++ es2) v.
Proof.
  intros He Hv. rewrite !fold_left_app. cbn [fold_left].
  rewrite relax_inert; [reflexivity | exact He | now apply rounded_fold_relax].
Qed.

Lemma search_inert (fuel : nat) (ns : list Node.t) (es1 es2 : list Edge.t)
  (e : Edge.t) (t : string) (v : vars) :
  inert e -> rounded v ->
  search fuel (Graph.mk ns (es1 ++ e :: es2)) t v =
  search fuel (Graph.mk ns (es1 ++ es2)) t v.
Proof.
  intros He. revert v. induction fuel as [|fuel IH]; intros v Hv; [reflexivity|].
  cbn [search Graph.edges]. destruct (sort (pq v)) as [|top rest]; [reflexivity|].
  destruct (Entry.node top =? t)%string; [reflexivity|].
  rewrite fold_relax_inert by (exact He || exact Hv).
  apply IH. apply rounded_fold_relax. exact Hv.
Qed.

(** An edge whose weight is [NaN] or [Infinity], and a loop of
    non-negative weight, can be stored but is never used: [dijkstra]
    returns the same result with and without it, whatever the rest of the
    graph. *)
Theorem dijkstra_ignores_inert (fuel : nat) (ns : list Node.t)
  (es1 es2 : list Edge.t) (e : Edge.t) (s t : string) :
  inert e ->
  dijkstra fuel (Graph.mk ns (es1 ++ e :: es2)) s t =
  dijkstra fuel (Graph.mk ns (es1 ++ es2)) s t.
Proof.
  intros He. unfold dijkstra.
  change (initialise (Graph.mk ns (es1 ++ e :: es2)) s)
    with (initialise (Graph.mk ns (es1 ++ es2)) s).
  rewrite search_inert; [reflexivity | exact He | apply rounded_initialise].
Qed.

Lemma dijkstra_ignores_inert_witness :
  dijkstra 4 (Graph.mk (Graph.nodes triangle)
                ([Edge.mk "A" "B" "1" (Fin one)] ++ Edge.mk "A" "C" "x" NaN ::
                 [Edge.mk "B" "C" "1" (Fin one)])) "A" "C" =
  dijkstra 4 (Graph.mk (Graph.nodes triangle)
                ([Edge.mk "A" "B" "1" (Fin one)] ++ [Edge.mk "B" "C" "1" (Fin one)])) "A" "C".
Proof.
  apply (dijkstra_ignores_inert 4 (Graph.nodes triangle)
           [Edge.mk "A" "B" "1" (Fin one)] [Edge.mk "B" "C" "1" (Fin one)]
           (Edge.mk "A" "C" "x" NaN) "A" "C").
  left. reflexivity.
Defined.

(** ** Every query returns *)

Lemma member_text_plain (k : string) : inherited (member_text k) = false.
Proof.
  unfold member_text. destruct (k =? "__proto__")%string; reflexivity.
Qed.

Lemma get_own_inv {A : Type} (o : gmap string A) (k : string) (a : A) :
  get o k = Own a -> o !! k = Some a.
Proof.
  unfold get. destruct (o !! k); [congruence|].
  destruct (inherited k); discriminate.
Qed.

Lemma reconstruct_next (prev : gmap string (option string)) (c : item)
  (acc : list item) :
  (forall k u, prev !! k = Some (Some u) ->
     exists q, forall f acc', length q < f ->
       reconstruct f prev (Some (Id u)) acc' = Some (map Id q ++ acc')) ->
  (forall k, predecessor prev c <> Some (Proto k)) ->
  exists f0 p, forall f, f0 <= f ->
    reconstruct f prev (predecessor prev c) acc = Some p.
Proof.
  intros Hown Hno. unfold predecessor in *.
  destruct (get prev (property_key c)) as [[u|]|k|] eqn:E.
  - destruct (Hown _ u (get_own_inv _ _ _ E)) as [q Hq].
    exists (S (length q)), (map Id q ++ acc). intros f Hf. apply Hq. lia.
  - exists 1, acc. intros [|f] Hf; [lia | reflexivity].
  - destruct (Hno k eq_refl).
  - exists 1, acc. intros [|f] Hf; [lia | reflexivity].
Qed.

Lemma reconstruct_total (prev : gmap string (option string)) (t : string) :
  (forall k u, prev !! k = Some (Some u) ->
     exists q, forall f acc', length q < f ->
       reconstruct f prev (Some (Id u)) acc' = Some (map Id q ++ acc')) ->
  exists f0 p, forall f, f0 <= f ->
    reconstruct f prev (Some (Id t)) [] = Some p.
Proof.
  intros Hown. destruct (truthy t) eqn:Et.
  2:{ exists 1, []. intros [|f] Hf; [lia|]. cbn [reconstruct item_truthy].
      now rewrite Et. }
  destruct (predecessor prev (Id t)) as [[u|k]|] eqn:E.
  - destruct (reconstruct_next prev (Id t) [Id t] Hown) as (f0 & p & Hp).
    { intros k. rewrite E. discriminate. }
    exists (S f0), p. intros [|f] Hf; [lia|]. cbn [reconstruct item_truthy].
    rewrite Et. apply Hp. lia.
  - destruct (reconstruct_next prev (Proto k) [Proto k; Id t] Hown)
      as (f0 & p & Hp).
    { intros k' H. unfold predecessor, get in H. cbn [property_key] in H.
      destruct (prev !! member_text k) as [[u|]|]; try discriminate.
      rewrite member_text_plain in H. discriminate. }
    exists (S (S f0)), p. intros [|[|f]] Hf; try lia.
    cbn [reconstruct item_truthy]. rewrite Et, E. apply Hp. lia.
  - exists 2, [Id t]. intros [|[|f]] Hf; try lia.
    cbn [reconstruct item_truthy]. now rewrite Et, E.
Qed.

Lemma core_chain (g : Graph.t) (s : string) (done : gset string) (cur : string)
  (seen : list Edge.t) (v : vars) (k u : string) :
  core g s done cur seen v ->
  previous v !! k = Some (Some u) ->
  exists q, forall f acc, length q < f ->
    reconstruct f (previous v) (Some (Id u)) acc = Some (map Id q ++ acc).
Proof.
  intros Hc Hk.
  destruct (core_prev _ _ _ _ _ _ Hc k u Hk) as [x Hx].
  destruct (core_linked _ _ _ _ _ _ Hc k x Hx) as [p Hl].
  inversion Hl as [Hs Hp|u' v' p' c e w c' Hl' Hu Hdu Hv Hpv He Hj Hw Hadd]; subst.
  - rewrite (predecessor_own _ _ _ Hk) in Hp. discriminate.
  - rewrite Hk in Hpv. injection Hpv as <-.
    exists p'. intros f acc Hf.
    exact (linked_reconstruct g s done _ _ u p' c Hl' f acc Hf).
Qed.

Lemma search_outside (n : nat) (g : Graph.t) (s t : string) :
  valid_snapshot g -> ~ In s (Graph.ids g) ->
  search (S (S n)) g t (initialise g s) = Some (dequeued (initialise g s) []).
Proof.
  intros [_ Hed] Hout. cbn [search]. rewrite initialise_pq.
  cbn [sort insert_sorted Entry.node].
  destruct (s =? t)%string; [reflexivity|].
  rewrite fold_relax_not_incident; [reflexivity|].
  intros e He. destruct (Hed e He) as [Hf Hto].
  split; intros Heq; rewrite Heq in *; contradiction.
Qed.

Lemma dijkstra_answers (g : Graph.t) (s t : string) :
  valid_snapshot g -> nonneg_weights g ->
  exists fuel r, forall fuel', fuel <= fuel' -> dijkstra fuel' g s t = Some r.
Proof.
  intros Hvalid Hnonneg.
  destruct (decide (In s (Graph.ids g))) as [Hin|Hout].
  - assert (Hs : s <> ""%string) by (destruct Hvalid as [Hid _]; now apply Hid).
    destruct (search_finishes g s Hvalid Hnonneg Hs (or_introl Hin) t)
      as (f0 & v & Hsearch & [done Hc] & _).
    destruct (reconstruct_total (previous v) t) as (f1 & p & Hp).
    { intros k u Hk. exact (core_chain g s done s _ v k u Hc Hk). }
    exists (f0 + f1), {| path := p; distance := get (distances v) t |}.
    intros fuel' Hle. unfold dijkstra.
    rewrite (search_more_fuel g t f0 fuel' _ v Hsearch) by lia.
    rewrite Hp by lia. reflexivity.
  - destruct (reconstruct_total (previous (initialise g s)) t) as (f1 & p & Hp).
    { intros k u Hk. rewrite initialise_previous in Hk.
      destruct (bool_decide _); discriminate. }
    exists (2 + f1), {| path := p; distance := get (distances (initialise g s)) t |}.
    intros [|[|n]] Hle; try lia. unfold dijkstra.
    rewrite (search_outside n g s t Hvalid Hout).
    cbn [dequeued previous distances].
    rewrite Hp by lia. reflexivity.
Qed.

(** On a valid snapshot with finite non-negative weights every query
    returns: from some amount of fuel on, [dijkstra] gives one and the same
    result, for every source and target, present or not. *)
Theorem dijkstra_returns (g : Graph.t) (s t : string) :
  valid_snapshot g -> nonneg_weights g ->
  exists fuel r, forall fuel', fuel <= fuel' -> dijkstra fuel' g s t = Some r.
Proof.
  exact (dijkstra_answers g s t).
Qed.

Lemma dijkstra_returns_witness :
  exists fuel r, forall fuel', fuel <= fuel' -> dijkstra fuel' triangle "C" "A" = Some r.
Proof.
  apply (dijkstra_returns triangle "C" "A").
  - exact triangle_valid.
  - exact triangle_nonneg.
Defined.

(** A click on the find-path button, on a store whose weights are finite
    and non-negative, always ends, and it changes neither the graph nor
    the two forms: only the displayed result. *)
Theorem findShortestPath_returns (st : state) :
  valid_snapshot (snapshot st) -> nonneg_weights (snapshot st) ->
  exists fuel st',
    (forall fuel', fuel <= fuel' -> findShortestPath fuel' st = Some st') /\
    nodes st' = nodes st /\ edges st' = edges st /\
    newNode st' = newNode st /\ newEdge st' = newEdge st.
Proof.
  intros Hvalid Hnonneg. unfold findShortestPath.
  destruct (truthy (Form.from (newEdge st)) && truthy (Form.to (newEdge st))).
  - destruct (dijkstra_answers (snapshot st) (Form.from (newEdge st))
                (Form.to (newEdge st)) Hvalid Hnonneg) as (fuel & r & Hr).
    exists fuel, (setShortestPath (Some r) st). split.
    + intros fuel' Hle. now rewrite (Hr fuel' Hle).
    + repeat split.
  - exists 0, st. repeat split.
Qed.

Lemma findShortestPath_returns_witness :
  exists fuel st',
    (forall fuel', fuel <= fuel' ->
       findShortestPath fuel'
         (setNewEdge (Form.mk "A" "B" One) (run [AddNode "A"; AddNode "B"])) = Some st') /\
    nodes st' = nodes (setNewEdge (Form.mk "A" "B" One) (run [AddNode "A"; AddNode "B"])) /\
    edges st' = edges (setNewEdge (Form.mk "A" "B" One) (run [AddNode "A"; AddNode "B"])) /\
    newNode st' = newNode (setNewEdge (Form.mk "A" "B" One) (run [AddNode "A"; AddNode "B"])) /\
    newEdge st' = newEdge (setNewEdge (Form.mk "A" "B" One) (run [AddNode "A"; AddNode "B"])).
Proof.
  apply (findShortestPath_returns
           (setNewEdge (Form.mk "A" "B" One) (run [AddNode "A"; AddNode "B"]))).
  - exact (run_valid_snapshot [AddNode "A"; AddNode "B"]).
  - intros e [].
Defined.

(** In every state the component reaches with finite non-negative
    weights, the result of a query with non-empty fields tells whether the
    target can be reached at a finite cost: either the cost is finite and
    the path is a route from the source to the target whose weights add
    up to that cost, or the cost is unreachable, the path is the target
    alone, and every route from the source to the target, if there is
    one, has a sum that overflows to [Infinity]. *)
Theorem findShortestPath_decides (evs : list event) (s t : string) :
  Form.from (newEdge (session evs)) = s -> Form.to (newEdge (session evs)) = t ->
  s <> ""%string -> t <> ""%string ->
  nonneg_weights (snapshot (session evs)) ->
  exists fuel r,
    findShortestPath fuel (session evs) =
      Some (setShortestPath (Some r) (session evs)) /\
    ((exists x q, distance r = Own (Fin x) /\ path r = map Id q /\
                  route (snapshot (session evs)) s q t (Fin x)) \/
     (unreachable (distance r) /\ path r = [Id t] /\
      forall p c, route (snapshot (session evs)) s p t c -> c = PosInf)).
Proof.
  intros Ef Et Hs Ht Hnonneg.
  destruct (findShortestPath_outcome evs s t Ef Et Hs Ht Hnonneg)
    as (fuel & r & Hd & [(x & q & done & d & prev & Hx & Hq & Hl & _)|(Hu & Hp & Hno)]).
  - exists fuel, r. split; [exact Hd|]. left. exists x, q.
    split; [exact Hx|]. split; [exact Hq|].
    exact (linked_route _ s done d prev t q x Hl).
  - exists fuel, r. split; [exact Hd|]. right.
    split; [|split; assumption].
    rewrite Hu. destruct (bool_decide _); [now left | now right].
Qed.

Lemma findShortestPath_decides_witness :
  exists fuel r,
    findShortestPath fuel (session heavy_line) =
      Some (setShortestPath (Some r) (session heavy_line)) /\
    ((exists x q, distance r = Own (Fin x) /\ path r = map Id q /\
                  route (snapshot (session heavy_line)) "A" q "C" (Fin x)) \/
     (unreachable (distance r) /\ path r = [Id "C"] /\
      forall p c, route (snapshot (session heavy_line)) "A" p "C" c -> c = PosInf)).
Proof.
  apply (findShortestPath_decides heavy_line "A" "C").
  - reflexivity.
  - reflexivity.
  - discriminate.
  - discriminate.
  - exact heavy_line_nonneg.
Defined.

(** ** The shape of the returned path *)

Lemma route_ends (g : Graph.t) (s t : string) (p : list string) (c : number) :
  route g s p t c -> hd_error p = Some s /\ List.last p s = t.
Proof.
  induction 1 as [|p u v e c Hr [IHh IHl] He Hj]; [split; reflexivity|].
  split; [|apply List.last_last].
  destruct p as [|a p]; [discriminate | exact IHh].
Qed.

Lemma route_members (g : Graph.t) (s t : string) (p : list string) (c : number) :
  valid_snapshot g -> route g s p t c ->
  forall n, In n p -> n = s \/ In n (Graph.ids g).
Proof.
  intros Hvalid. induction 1 as [|p u v e c Hr IH He Hj]; intros n Hn.
  - destruct Hn as [<-|[]]. now left.
  - apply in_app_iff in Hn. destruct Hn as [Hn|[<-|[]]]; [now apply IH|].
    right. exact (joins_endpoint g Hvalid e u v He Hj).
Qed.

Lemma linked_functional (g : Graph.t) (s : string) (done : gset string)
  (d : gmap string number) (prev : gmap string (option string))
  (k : string) (p1 p2 : list string) (c1 c2 : Z) :
  linked g s done d prev k p1 c1 -> linked g s done d prev k p2 c2 -> p1 = p2.
Proof.
  intros H1. revert p2 c2.
  induction H1 as [Hs Hp|u v p c e w c' Hl IH Hu Hdu Hv Hpv He Hj Hw Hadd];
    intros p2 c2 H2.
  - inversion H2 as [|u' v' p' c0 e' w' c0' Hl' Hu' Hdu' Hv' Hpv']; [reflexivity|].
    subst. rewrite (predecessor_own _ _ _ Hpv') in Hp. discriminate.
  - inversion H2 as [Hs' Hp'|u' v' p' c0 e' w' c0' Hl' Hu' Hdu' Hv' Hpv']; subst.
    + rewrite (predecessor_own _ _ _ Hpv) in Hp'. discriminate.
    + rewrite Hpv in Hpv'. injection Hpv' as <-.
      now rewrite (IH p' c0 Hl').
Qed.

Lemma linked_inner (g : Graph.t) (s : string) (done : gset string)
  (d : gmap string number) (prev : gmap string (option string))
  (k : string) (p : list string) (x : Z) :
  linked g s done d prev k p x ->
  forall n, In n p ->
    exists q y, linked g s done d prev n q y /\ length q <= length p.
Proof.
  induction 1 as [Hs Hp|u v p c e w c' Hl IH Hu Hdu Hv Hpv He Hj Hw Hadd];
    intros n Hn.
  - destruct Hn as [<-|[]]. exists [s], 0%Z. split; [now apply linked_start | lia].
  - apply in_app_iff in Hn. rewrite length_app. destruct Hn as [Hn|[<-|[]]].
    + destruct (IH n Hn) as (q & y & Hq & Hlen). exists q, y. split; [exact Hq | lia].
    + exists (p ++ [v]), c'. rewrite length_app. split; [|lia].
      now apply (linked_step g s done d prev u v p c e w c').
Qed.

Lemma linked_NoDup (g : Graph.t) (s : string) (done : gset string)
  (d : gmap string number) (prev : gmap string (option string))
  (k : string) (p : list string) (x : Z) :
  linked g s done d prev k p x -> NoDup p.
Proof.
  induction 1 as [Hs Hp|u v p c e w c' Hl IH Hu Hdu Hv Hpv He Hj Hw Hadd].
  - apply NoDup_singleton.
  - apply NoDup_app. split; [exact IH|]. split; [|apply NoDup_singleton].
    intros n Hn Hn'. apply list_elem_of_In in Hn, Hn'.
    destruct Hn' as [<-|[]].
    destruct (linked_inner g s done d prev u p c Hl v Hn) as (q & y & Hq & Hlen).
    pose proof (linked_step g s done d prev u v p c e w c' Hl Hu Hdu Hv Hpv He Hj Hw Hadd)
      as Hfull.
    rewrite (linked_functional g s done d prev v q (p ++ [v]) y c' Hq Hfull)
      in Hlen.
    rewrite length_app in Hlen. simpl in Hlen. lia.
Qed.

(** In every state the component reaches with finite non-negative
    weights, when some route from the (non-empty) source to the target has
    a finite cost, the returned path starts at the source, ends at the
    target, visits no node twice, and apart from the source only visits
    nodes of the graph. *)
Theorem findShortestPath_path_simple (evs : list event) (s t : string)
  (p : list string) (c : Z) :
  Form.from (newEdge (session evs)) = s -> Form.to (newEdge (session evs)) = t ->
  s <> ""%string ->
  nonneg_weights (snapshot (session evs)) ->
  route (snapshot (session evs)) s p t (Fin c) ->
  exists fuel r q,
    findShortestPath fuel (session evs) =
      Some (setShortestPath (Some r) (session evs)) /\
    path r = map Id q /\
    hd_error q = Some s /\ List.last q s = t /\
    NoDup q /\
    forall n, In n q -> n = s \/ In n (ids (session evs)).
Proof.
  intros Ef Et Hs Hnonneg Hr.
  pose proof (route_target_nonempty _ s t p _ (session_valid_snapshot evs) Hs Hr) as Ht.
  destruct (findShortestPath_outcome evs s t Ef Et Hs Ht Hnonneg)
    as (fuel & r & Hd & [(x & q & done & d & prev & _ & Hq & Hl & _)|(_ & _ & Hno)]).
  2:{ specialize (Hno p _ Hr). discriminate. }
  exists fuel, r, q. split; [exact Hd|]. split; [exact Hq|].
  pose proof (linked_route _ s done d prev t q x Hl) as Hroute.
  destruct (route_ends _ s t q _ Hroute) as [Hh Hlast].
  split; [exact Hh|]. split; [exact Hlast|].
  split; [exact (linked_NoDup _ s done d prev t q x Hl)|].
  exact (route_members _ s t q _ (session_valid_snapshot evs) Hroute).
Qed.

Lemma findShortestPath_path_simple_witness :
  exists fuel r q,
    findShortestPath fuel (session triangle_clicks) =
      Some (setShortestPath (Some r) (session triangle_clicks)) /\
    path r = map Id q /\
    hd_error q = Some "A"%string /\ List.last q "A"%string = "C"%string /\
    NoDup q /\
    forall n, In n q -> n = "A"%string \/ In n (ids (session triangle_clicks)).
Proof.
  apply (findShortestPath_path_simple triangle_clicks "A" "C" ["A"; "C"]%string
           (5 * one)).
  - reflexivity.
  - reflexivity.
  - discriminate.
  - exact triangle_clicks_nonneg.
  - exact triangle_clicks_direct.
Defined.

(** ** Costs across graphs *)

Lemma route_more_edges (g g' : Graph.t) (s t : string) (p : list string)
  (c : number) :
  (forall e, In e (Graph.edges g) -> In e (Graph.edges g')) ->
  route g s p t c -> route g' s p t c.
Proof.
  intros Hincl. induction 1 as [|p u v e c Hr IH He Hj].
  - apply route_start.
  - apply (route_step g' s p u v e c); try assumption. now apply Hincl.
Qed.

Lemma handle_keeps_edges (st : state) (ev : event) (e : Edge.t) :
  ev <> ClickClear -> In e (edges st) -> In e (edges (handle st ev)).
Proof.
  intros Hev He. destruct ev as [v|v|v|v| | |]; cbn [handle]; try exact He.
  - now rewrite addNode_edges.
  - destruct (addEdge_cases st) as [(_ & _ & _ & _ & _ & _ & H)|[_ E]].
    + rewrite H. apply in_app_iff. now left.
    + now rewrite E.
  - contradiction.
Qed.

Lemma fold_handle_keeps_edges (more : list event) (st : state) (e : Edge.t) :
  ~ In ClickClear more -> In e (edges st) ->
  In e (edges (fold_left handle more st)).
Proof.
  revert st. induction more as [|ev more IH]; intros st Hno He; cbn [fold_left];
    [exact He|].
  apply IH.
  - intros H. apply Hno. now right.
  - apply handle_keeps_edges; [|exact He]. intros ->. apply Hno. now left.
Qed.

Lemma session_cost_bound (evs evs' : list event) (s t : string)
  (p : list string) (c : Z) :
  Form.from (newEdge (session evs)) = s -> Form.to (newEdge (session evs)) = t ->
  Form.from (newEdge (session evs')) = s -> Form.to (newEdge (session evs')) = t ->
  s <> ""%string ->
  nonneg_weights (snapshot (session evs)) ->
  nonneg_weights (snapshot (session evs')) ->
  (forall e, In e (edges (session evs)) -> In e (edges (session evs'))) ->
  route (snapshot (session evs)) s p t (Fin c) ->
  exists fuel fuel' r r' x x',
    findShortestPath fuel (session evs) =
      Some (setShortestPath (Some r) (session evs)) /\
    findShortestPath fuel' (session evs') =
      Some (setShortestPath (Some r') (session evs')) /\
    distance r = Own (Fin x) /\ distance r' = Own (Fin x') /\ (x' <= x)%Z.
Proof.
  intros Ef Et Ef' Et' Hs Hn Hn' Hincl Hr.
  pose proof (route_target_nonempty _ s t p _ (session_valid_snapshot evs) Hs Hr) as Ht.
  destruct (findShortestPath_outcome evs s t Ef Et Hs Ht Hn)
    as (fuel & r & Hd & [(x & q & done & d & prev & Hx & _ & Hl & _)|(_ & _ & Hno)]).
  2:{ specialize (Hno p _ Hr). discriminate. }
  pose proof (route_more_edges (snapshot (session evs)) (snapshot (session evs'))
                s t q _ Hincl (linked_route _ s done d prev t q x Hl)) as Hr'.
  destruct (findShortestPath_outcome evs' s t Ef' Et' Hs Ht Hn')
    as (fuel' & r' & Hd' & [(x' & q' & done' & d' & prev' & Hx' & _ & _ & _ & Hmin')|
                            (_ & _ & Hno')]).
  2:{ specialize (Hno' q _ Hr'). discriminate. }
  exists fuel, fuel', r, r', x, x'. repeat split; try assumption.
  exact (Hmin' q _ Hr').
Qed.

(** As long as the graph is not cleared, a query never gets costlier:
    when some route from the (non-empty) source to the target has a finite
    cost, then after any further typing and adding of nodes and edges,
    none of them with a negative or non-numeric weight, the same query
    returns a cost that is at most what it was. *)
Theorem session_never_lengthens (evs more : list event) (s t : string)
  (p : list string) (c : Z) :
  ~ In ClickClear more ->
  Form.from (newEdge (session evs)) = s -> Form.to (newEdge (session evs)) = t ->
  Form.from (newEdge (session (evs ++ more))) = s ->
  Form.to (newEdge (session (evs ++ more))) = t ->
  s <> ""%string ->
  nonneg_weights (snapshot (session (evs ++ more))) ->
  route (snapshot (session evs)) s p t (Fin c) ->
  exists fuel fuel' r r' x x',
    findShortestPath fuel (session evs) =
      Some (setShortestPath (Some r) (session evs)) /\
    findShortestPath fuel' (session (evs ++ more)) =
      Some (setShortestPath (Some r') (session (evs ++ more))) /\
    distance r = Own (Fin x) /\ distance r' = Own (Fin x') /\ (x' <= x)%Z.
Proof.
  intros Hno Ef Et Ef' Et' Hs Hn' Hr.
  assert (Hincl : forall e, In e (edges (session evs)) ->
                            In e (edges (session (evs ++ more)))).
  { intros e He. unfold session. rewrite fold_left_app.
    now apply fold_handle_keeps_edges. }
  apply (session_cost_bound evs (evs ++ more) s t p c); try assumption.
  intros e He. apply Hn'. now apply Hincl.
Qed.

Lemma pair_clicks_route :
  route (snapshot (session pair_clicks)) "A" ["A"; "B"]%string "B" (Fin (5 * one)).
Proof.
  change (Fin (5 * one))
    with (num_add (Fin 0) (Edge.weight (Edge.mk "A" "B" "5" (Fin (5 * one))))).
  apply (route_step _ "A" ["A"%string] "A" "B" (Edge.mk "A" "B" "5" (Fin (5 * one)))
           (Fin 0)).
  - apply route_start.
  - vm_compute. now left.
  - left. split; reflexivity.
Qed.

Lemma second_edge_nonneg :
  nonneg_weights (snapshot (session (pair_clicks ++ second_edge))).
Proof.
  intros e He. vm_compute in He.
  destruct He as [<-|[<-|[]]]; eexists; (split; [reflexivity | discriminate]).
Qed.

Lemma session_never_lengthens_witness :
  exists fuel fuel' r r' x x',
    findShortestPath fuel (session pair_clicks) =
      Some (setShortestPath (Some r) (session pair_clicks)) /\
    findShortestPath fuel' (session (pair_clicks ++ second_edge)) =
      Some (setShortestPath (Some r') (session (pair_clicks ++ second_edge))) /\
    distance r = Own (Fin x) /\ distance r' = Own (Fin x') /\ (x' <= x)%Z.
Proof.
  apply (session_never_lengthens pair_clicks second_edge "A" "B"
           ["A"; "B"]%string (5 * one)).
  - intros H. vm_compute in H. intuition discriminate.
  - reflexivity.
  - reflexivity.
  - reflexivity.
  - reflexivity.
  - discriminate.
  - exact second_edge_nonneg.
  - exact pair_clicks_route.
Defined.

(** The cost does not depend on the order in which the edges were added:
    two states of the component that hold the same edges and the same
    query give the same cost when some route from the (non-empty) source
    to the target has a finite cost (the paths may differ when costs
    tie). *)
Theorem findShortestPath_cost_order_free (evs evs' : list event) (s t : string)
  (p : list string) (c : Z) :
  Form.from (newEdge (session evs)) = s -> Form.to (newEdge (session evs)) = t ->
  Form.from (newEdge (session evs')) = s -> Form.to (newEdge (session evs')) = t ->
  s <> ""%string ->
  nonneg_weights (snapshot (session evs)) ->
  (forall e, In e (edges (session evs)) <-> In e (edges (session evs'))) ->
  route (snapshot (session evs)) s p t (Fin c) ->
  exists fuel fuel' r r' x,
    findShortestPath fuel (session evs) =
      Some (setShortestPath (Some r) (session evs)) /\
    findShortestPath fuel' (session evs') =
      Some (setShortestPath (Some r') (session evs')) /\
    distance r = Own (Fin x) /\ distance r' = Own (Fin x).
Proof.
  intros Ef Et Ef' Et' Hs Hn Hsame Hr.
  assert (Hn' : nonneg_weights (snapshot (session evs')))
    by (intros e He; apply Hn, Hsame, He).
  pose proof (route_target_nonempty _ s t p _ (session_valid_snapshot evs) Hs Hr) as Ht.
  pose proof (route_more_edges (snapshot (session evs)) (snapshot (session evs'))
                s t p _ (fun e => proj1 (Hsame e)) Hr) as Hr'.
  destruct (findShortestPath_outcome evs s t Ef Et Hs Ht Hn)
    as (fuel & r & Hd & [(x & q & done & d & prev & Hx & _ & Hl & _ & Hmin)|
                         (_ & _ & Hno)]).
  2:{ specialize (Hno p _ Hr). discriminate. }
  destruct (findShortestPath_outcome evs' s t Ef' Et' Hs Ht Hn')
    as (fuel' & r' & Hd' & [(x' & q' & done' & d' & prev' & Hx' & _ & Hl' & _ & Hmin')|
                            (_ & _ & Hno')]).
  2:{ specialize (Hno' p _ Hr'). discriminate. }
  exists fuel, fuel', r, r', x. repeat split; try assumption.
  rewrite Hx'. do 2 f_equal.
  pose proof (Hmin' q _
                (route_more_edges (snapshot (session evs)) (snapshot (session evs'))
                   s t q _ (fun e => proj1 (Hsame e))
                   (linked_route _ s done d prev t q x Hl))) as H1.
  pose proof (Hmin q' _
                (route_more_edges (snapshot (session evs')) (snapshot (session evs))
                   s t q' _ (fun e => proj2 (Hsame e))
                   (linked_route _ s done' d' prev' t q' x' Hl'))) as H2.
  simpl in H1, H2. lia.
Qed.

Lemma triangle_reordered_edges (e : Edge.t) :
  In e (edges (session triangle_clicks)) <-> In e (edges (session triangle_reordered)).
Proof.
  vm_compute. tauto.
Qed.

Lemma findShortestPath_cost_order_free_witness :
  exists fuel fuel' r r' x,
    findShortestPath fuel (session triangle_clicks) =
      Some (setShortestPath (Some r) (session triangle_clicks)) /\
    findShortestPath fuel' (session triangle_reordered) =
      Some (setShortestPath (Some r') (session triangle_reordered)) /\
    distance r = Own (Fin x) /\ distance r' = Own (Fin x).
Proof.
  apply (findShortestPath_cost_order_free triangle_clicks triangle_reordered
           "A" "C" ["A"; "C"]%string (5 * one)).
  - reflexivity.
  - reflexivity.
  - reflexivity.
  - reflexivity.
  - discriminate.
  - exact triangle_clicks_nonneg.
  - exact triangle_reordered_edges.
  - exact triangle_clicks_direct.
Defined.

(** ** Sums of doubles *)

(** The cost of a query can differ from the cost of the reverse query,
    because the weights are added in the order of the path and every sum
    is rounded: on the line A-B 0.1, B-C 0.2, C-D 0.3 the query (A, D)
    returns 0.6000000000000001 (5404319552844596 * 2^-53) and the query
    (D, A) returns 0.6 (5404319552844595 * 2^-53). *)
Theorem cost_depends_on_direction :
  findShortestPath 5 (session (decimal_line ++ [ChangeFrom "a"; ChangeTo "d"])) =
  Some (setShortestPath
          (Some {| path := [Id "A"; Id "B"; Id "C"; Id "D"];
                   distance := Own (Fin (5404319552844596 * 2 ^ 1021)) |})
          (session (decimal_line ++ [ChangeFrom "a"; ChangeTo "d"]))) /\
  findShortestPath 5 (session (decimal_line ++ [ChangeFrom "d"; ChangeTo "a"])) =
  Some (setShortestPath
          (Some {| path := [Id "D"; Id "C"; Id "B"; Id "A"];
                   distance := Own (Fin (5404319552844595 * 2 ^ 1021)) |})
          (session (decimal_line ++ [ChangeFrom "d"; ChangeTo "a"]))).
Proof.
  split; vm_compute; reflexivity.
Qed.

(** ** Targets named like a member of [Object.prototype] *)

(** The component upper-cases every id, but [dijkstra] itself reads
    [previous] and [distances] at whatever target it is given.  For a
    target that is no node and is named like a member of
    [Object.prototype], these reads find the inherited member: the cost is
    that member, and the path holds it in front of the target. *)
Theorem dijkstra_inherited_target :
  dijkstra 3 lonely "A" "toString" =
  Some {| path := [Proto "toString"; Id "toString"]; distance := Member "toString" |} /\
  dijkstra 3 (Graph.mk [] []) "constructor" "constructor" =
  Some {| path := [Proto "constructor"; Id "constructor"]; distance := Own (Fin 0) |}.
Proof.
  split; reflexivity.
Qed.
